(** * graphic-walker: the multi-view chart component and its renderer wrapper

    A shallow embedding of
      - [packages/graphic-walker/src/vis/react-vega.tsx] (component [ReactVega]):
        the grid planner (memoised derivations of the row/column channels),
        the composite spec, the embed effect with its readiness channel, the
        cross-view interaction bus and the imperative handle;
      - [packages/graphic-walker/src/renderer/index.tsx] (component [Renderer]):
        the data-pipeline effect.

    JavaScript objects that React compares by identity carry an explicit
    reference; promises are modelled by their settlement, and the event loop
    by a step function over explicit events. *)

From Stdlib Require Import List Ascii String ZArith QArith Lia Bool DecimalString.
From stdpp Require Import base gmap strings list.
Import ListNotations.
Close Scope Q_scope.
Open Scope string_scope.
Open Scope list_scope.
Open Scope nat_scope.

(* ===================================================================== *)
(** * JavaScript preliminaries *)
(* ===================================================================== *)

Module JS.

(** Object identity. [Outer] references belong to objects handed in by the
    parent component (props); [Inner] references to objects the component
    allocates itself while rendering. *)
Inductive ref : Type :=
  | Outer (n : nat)
  | Inner (n : nat).

#[global] Instance ref_eq_dec : EqDecision ref.
Proof. solve_decision. Defined.

(** An object (or array) with its identity. *)
Record Obj (A : Type) : Type := mkObj { oref : ref; oval : A }.
Arguments mkObj {A} _ _.
Arguments oref {A} _.
Arguments oval {A} _.

(** An entry of a hook dependency list: [undefined] or an object, compared
    with [Object.is], i.e. by identity. *)
Definition dep : Type := option ref.

Definition dep_of {A} (o : Obj A) : dep := Some (oref o).
Definition dep_of_opt {A} (o : option (Obj A)) : dep := oref <$> o.

(** Allocation of fresh objects: a state monad over the next free [Inner]
    reference. *)
Definition Alloc (A : Type) : Type := nat → A * nat.

Definition alloc_ret {A} (a : A) : Alloc A := λ n, (a, n).
Definition alloc_bind {A B} (m : Alloc A) (k : A → Alloc B) : Alloc B :=
  λ n, let '(a, n') := m n in k a n'.

Declare Scope alloc_scope.
Delimit Scope alloc_scope with alloc.
Notation "x <- m ;; k" := (alloc_bind m (λ x, k))
  (at level 100, m at next level, right associativity) : alloc_scope.

Definition new {A} (v : A) : Alloc (Obj A) := λ n, (mkObj (Inner n) v, S n).

(** [Array.prototype.slice(start, end)]: a negative index counts from the
    end, and both indices are clamped to [0, length]. *)
Definition clamp_index (len : nat) (rel : Z) : nat :=
  if (rel <? 0)%Z then Z.to_nat (Z.max (Z.of_nat len + rel) 0)
  else Z.to_nat (Z.min rel (Z.of_nat len)).

Definition slice {A} (start : Z) (end_ : option Z) (l : list A) : list A :=
  let len := length l in
  let k := clamp_index len start in
  let final := match end_ with
               | None => len
               | Some e => clamp_index len e
               end in
  take (final - k) (drop k l).

End JS.

Import JS.
Local Open Scope alloc_scope.

(* ===================================================================== *)
(** * React hooks *)
(* ===================================================================== *)

Module Hooks.

(** The memo cell React keeps for one [useMemo] call site. *)
Record MemoCell (A : Type) : Type :=
  mkCell { cell_deps : list dep; cell_value : A }.
Arguments mkCell {A} _ _.
Arguments cell_deps {A} _.
Arguments cell_value {A} _.

(** [useMemo(cb, deps)]: the callback runs on mount and whenever some
    dependency differs (by identity) from the one of the previous run;
    otherwise the cached value is returned. *)
Definition useMemo {A} (cell : option (MemoCell A)) (cb : Alloc A) (deps : list dep)
  : Alloc (MemoCell A) :=
  match cell with
  | Some c =>
      if bool_decide (cell_deps c = deps) then alloc_ret c
      else (v <- cb ;; alloc_ret (mkCell deps v))
  | None => v <- cb ;; alloc_ret (mkCell deps v)
  end.

(** [useEffect(f, deps)]: whether the effect runs in this commit. *)
Definition effect_runs (prev : option (list dep)) (deps : list dep) : bool :=
  match prev with
  | Some d => negb (bool_decide (d = deps))
  | None => true
  end.

End Hooks.

Import Hooks.

(* ===================================================================== *)
(** * Fields and channels *)
(* ===================================================================== *)

(** Modelled from the spec: [interfaces.ts] is not among the sources. A field
    descriptor identifies a column and its role; the components read its
    [fid], its [analyticType], which is ['dimension'] or ['measure'], and its
    optional aggregation [aggName]. *)
Inductive IAnalyticType : Type := dimension | measure.

#[global] Instance IAnalyticType_eq_dec : EqDecision IAnalyticType.
Proof. solve_decision. Defined.

Record IViewField : Type := mkField {
  fid : string;
  analyticType : IAnalyticType;
  aggName : option string;
}.

#[global] Instance IViewField_eq_dec : EqDecision IViewField.
Proof. solve_decision. Defined.

(** Modelled from the spec: a row of the (already filtered and aggregated)
    data set; the component never looks inside it. *)
Definition IRow : Type := list (string * string).

Definition is_dimension (f : IViewField) : bool :=
  bool_decide (analyticType f = dimension).
Definition is_measure (f : IViewField) : bool :=
  bool_decide (analyticType f = measure).

(* ===================================================================== *)
(** * View grid planner: the memoised derivations of [ReactVega] *)
(* ===================================================================== *)

Module Planner.

(** The props of [ReactVega] the planner and the spec compiler read. Arrays
    and field objects come with their identity, which is what the hook
    dependency lists compare. *)
Record ReactVegaProps : Type := mkProps {
  rows : Obj (list IViewField);
  columns : Obj (list IViewField);
  dataSource : Obj (list IRow);
  color : option (Obj IViewField);
  opacity : option (Obj IViewField);
  size : option (Obj IViewField);
  shape : option (Obj IViewField);
  theta : option (Obj IViewField);
  radius : option (Obj IViewField);
  details : Obj (list IViewField);
  interactiveScale : bool;
  defaultAggregate : bool;
  stack : string;
  geomType : string;
}.

(** ** The callbacks of the [useMemo] calls, as functions of their inputs *)

(** [rows.filter(f => f.analyticType === 'dimension')] *)
Definition dims (fields : list IViewField) : list IViewField :=
  List.filter is_dimension fields.

(** [rows.filter(f => f.analyticType === 'measure')] *)
Definition meas (fields : list IViewField) : list IViewField :=
  List.filter is_measure fields.

(** [rowDims.slice(0, -1)] *)
Definition facetFields (axisDims : list IViewField) : list IViewField :=
  slice 0 (Some (-1)%Z) axisDims.

(** [rowMeas.length === 0 ? rowDims.slice(-1) : rowMeas] *)
Definition repeatFields (axisDims axisMeas : list IViewField) : list IViewField :=
  if Nat.eqb (length axisMeas) 0 then slice (-1) None axisDims else axisMeas.

(** [[...rows, ...columns, color, opacity, size].filter(f => Boolean(f)).map(f => f.fid)] *)
Definition fieldIds (rows columns : list IViewField) (color opacity size : option IViewField)
  : list string :=
  List.map fid
    (omap id ((Some <$> rows) ++ (Some <$> columns) ++ [color; opacity; size])).

(** [Math.max(1, rowRepeatFields.length * colRepeatFields.length)] *)
Definition viewNum (rowRepeat colRepeat : list IViewField) : nat :=
  Nat.max 1 (length rowRepeat * length colRepeat).

(** ** Hook state of one mounted [ReactVega] *)

Record HookState : Type := mkHooks {
  h_rowDims : option (MemoCell (Obj (list IViewField)));
  h_colDims : option (MemoCell (Obj (list IViewField)));
  h_rowMeas : option (MemoCell (Obj (list IViewField)));
  h_colMeas : option (MemoCell (Obj (list IViewField)));
  h_rowFacetFields : option (MemoCell (Obj (list IViewField)));
  h_colFacetFields : option (MemoCell (Obj (list IViewField)));
  h_rowRepeatFields : option (MemoCell (Obj (list IViewField)));
  h_colRepeatFields : option (MemoCell (Obj (list IViewField)));
  h_allFieldIds : option (MemoCell (Obj (list string)));
  (** [useState([])]: the placeholder ref objects, by identity *)
  h_viewPlaceholders : Obj (list ref);
  (** [useState(-1)] *)
  h_crossFilterTriggerIdx : Z;
  (** dependencies of the placeholder effect at its last run *)
  h_placeholderDeps : option (list dep);
}.

(** Hook state at mount, with the initial [useState] values. The initial
    placeholder array is the literal [[]] of the first render. *)
Definition mount : Alloc HookState :=
  ph <- new [] ;;
  alloc_ret (mkHooks None None None None None None None None None ph (-1) None).

(** The values one render of the function body computes (lines 120-128). *)
Record Rendered : Type := mkRendered {
  rowDims : Obj (list IViewField);
  colDims : Obj (list IViewField);
  rowMeas : Obj (list IViewField);
  colMeas : Obj (list IViewField);
  rowFacetFields : Obj (list IViewField);
  colFacetFields : Obj (list IViewField);
  rowRepeatFields : Obj (list IViewField);
  colRepeatFields : Obj (list IViewField);
  allFieldIds : Obj (list string);
}.

(** The callback of [rowRepeatFields] / [colRepeatFields] with the identity
    of its result: [slice] returns a new array, the other branch the
    measures array itself. *)
Definition repeatFields_cb (axisDims axisMeas : Obj (list IViewField))
  : Alloc (Obj (list IViewField)) :=
  if Nat.eqb (length (oval axisMeas)) 0
  then new (repeatFields (oval axisDims) (oval axisMeas))
  else alloc_ret axisMeas.

(** One call of the function component: every [useMemo] in source order,
    each with the dependency list written in the source. [filter], [slice]
    and [map] return a new array. *)
Definition render (p : ReactVegaProps) (h : HookState) : Alloc (HookState * Rendered) :=
  c_rowDims <- useMemo (h_rowDims h) (new (dims (oval (rows p)))) [dep_of (rows p)] ;;
  c_colDims <- useMemo (h_colDims h) (new (dims (oval (columns p)))) [dep_of (columns p)] ;;
  c_rowMeas <- useMemo (h_rowMeas h) (new (meas (oval (rows p)))) [dep_of (rows p)] ;;
  c_colMeas <- useMemo (h_colMeas h) (new (meas (oval (columns p)))) [dep_of (columns p)] ;;
  let rowDims := cell_value c_rowDims in
  let colDims := cell_value c_colDims in
  let rowMeas := cell_value c_rowMeas in
  let colMeas := cell_value c_colMeas in
  c_rowFacet <- useMemo (h_rowFacetFields h) (new (facetFields (oval rowDims))) [dep_of rowDims] ;;
  c_colFacet <- useMemo (h_colFacetFields h) (new (facetFields (oval colDims))) [dep_of colDims] ;;
  c_rowRepeat <- useMemo (h_rowRepeatFields h) (repeatFields_cb rowDims rowMeas)
                   [dep_of rowDims; dep_of rowMeas] ;;
  (* line 127: the dependency list names the row arrays *)
  c_colRepeat <- useMemo (h_colRepeatFields h) (repeatFields_cb colDims colMeas)
                   [dep_of rowDims; dep_of rowMeas] ;;
  c_allFieldIds <- useMemo (h_allFieldIds h)
                     (new (fieldIds (oval (rows p)) (oval (columns p))
                             (oval <$> color p) (oval <$> opacity p) (oval <$> size p)))
                     [dep_of (rows p); dep_of (columns p); dep_of_opt (color p);
                      dep_of_opt (opacity p); dep_of_opt (size p)] ;;
  alloc_ret
    (mkHooks (Some c_rowDims) (Some c_colDims) (Some c_rowMeas) (Some c_colMeas)
       (Some c_rowFacet) (Some c_colFacet) (Some c_rowRepeat) (Some c_colRepeat)
       (Some c_allFieldIds)
       (h_viewPlaceholders h) (h_crossFilterTriggerIdx h) (h_placeholderDeps h),
     mkRendered rowDims colDims rowMeas colMeas
       (cell_value c_rowFacet) (cell_value c_colFacet)
       (cell_value c_rowRepeat) (cell_value c_colRepeat) (cell_value c_allFieldIds)).

(** [new Array(viewNum).fill(null).map((v, i) => views[i] || React.createRef())] *)
Fixpoint nextViews (views : list ref) (i n : nat) : Alloc (list ref) :=
  match n with
  | 0 => alloc_ret []
  | S n' =>
      v <- match views !! i with
           | Some r => alloc_ret r
           | None => λ k, (Inner k, S k)
           end ;;
      rest <- nextViews views (S i) n' ;;
      alloc_ret (v :: rest)
  end.

(** The effect of lines 132-139, with dependencies
    [[rowRepeatFields, colRepeatFields]]: it resets the hovered view and
    resizes the placeholder array. *)
Definition placeholderEffect (r : Rendered) (h : HookState) : Alloc HookState :=
  let deps := [dep_of (rowRepeatFields r); dep_of (colRepeatFields r)] in
  if effect_runs (h_placeholderDeps h) deps then
    vs <- nextViews (oval (h_viewPlaceholders h)) 0
            (viewNum (oval (rowRepeatFields r)) (oval (colRepeatFields r))) ;;
    ph <- new vs ;;
    alloc_ret
      (mkHooks (h_rowDims h) (h_colDims h) (h_rowMeas h) (h_colMeas h)
         (h_rowFacetFields h) (h_colFacetFields h) (h_rowRepeatFields h)
         (h_colRepeatFields h) (h_allFieldIds h) ph (-1) (Some deps))
  else alloc_ret h.

(** A render followed by the commit of the placeholder effect. The state
    update re-renders with the same props: every memo is then reused and the
    effect does not run again. *)
Definition pass (p : ReactVegaProps) (h : HookState) : Alloc (HookState * Rendered) :=
  hr <- render p h ;;
  h' <- placeholderEffect (snd hr) (fst hr) ;;
  alloc_ret (h', snd hr).

(** The grid of the returned element:
    [<CanvaContainer rowSize={Math.max(rowRepeatFields.length, 1)} colSize={...}>]. *)
Definition rowSize (r : Rendered) : nat := Nat.max (length (oval (rowRepeatFields r))) 1.
Definition colSize (r : Rendered) : nat := Nat.max (length (oval (colRepeatFields r))) 1.

(** Running a sequence of passes from mount; the result of the last one. *)
Fixpoint passes (ps : list ReactVegaProps) (h : HookState) (last : option Rendered)
  : Alloc (HookState * option Rendered) :=
  match ps with
  | [] => alloc_ret (h, last)
  | p :: ps' => hr <- pass p h ;; passes ps' (fst hr) (Some (snd hr))
  end.

Definition run_passes (ps : list ReactVegaProps) : HookState * option Rendered :=
  fst ((h <- mount ;; passes ps h None) 0).

End Planner.

(* ===================================================================== *)
(** * Composite spec compiler: the synchronous part of the embed effect *)
(* ===================================================================== *)

Module Compiler.
Import Planner.

(** The argument of the single-view builder [getSingleView] (lines 183-200
    and 247-265). *)
Record SingleViewProps : Type := mkSingleViewProps {
  sv_x : IViewField;
  sv_y : IViewField;
  sv_color : IViewField;
  sv_opacity : IViewField;
  sv_size : IViewField;
  sv_shape : IViewField;
  sv_theta : IViewField;
  sv_radius : IViewField;
  sv_row : IViewField;
  sv_column : IViewField;
  sv_xOffset : IViewField;
  sv_yOffset : IViewField;
  sv_details : list IViewField;
  sv_defaultAggregated : bool;
  sv_stack : string;
  sv_geomType : string;
  sv_hideLegend : option bool;
}.

(** [select] of a top-level parameter. *)
Inductive Select : Type :=
  | SelectPoint (fields : list string)
  | SelectInterval.

Record Param : Type := mkParam {
  param_name : string;
  param_select : Select;
  param_bind : option string;
}.

#[global] Instance Select_eq_dec : EqDecision Select.
Proof. solve_decision. Defined.
#[global] Instance Param_eq_dec : EqDecision Param.
Proof. solve_decision. Defined.

Definition SELECTION_NAME : string := "geom".

(** The parameter pushed when [interactiveScale] is set (lines 168-174). *)
Definition grid_param : Param := mkParam "grid" SelectInterval (Some "scales").

(** The point-selection parameter of every spec (lines 160-166). *)
Definition geom_param (fields : list string) : Param :=
  mkParam SELECTION_NAME (SelectPoint fields) None.

(** [spec.params] after lines 156-174. *)
Definition spec_params (allFieldIds : list string) (interactiveScale : bool) : list Param :=
  [geom_param allFieldIds] ++ (if interactiveScale then [grid_param] else []).

(** [l.length > 0 ? l[l.length - 1] : d] *)
Definition last_or {A} (d : A) (l : list A) : A :=
  if Nat.ltb 0 (length l) then default d (l !! (length l - 1)) else d.

(** [rows.slice(0, -1).filter(f => f.analyticType === 'dimension')] *)
Definition leftFacetFields (fields : list IViewField) : list IViewField :=
  List.filter is_dimension (slice 0 (Some (-1)%Z) fields).

Section WithCollaborators.

(** [NULL_FIELD] of [./spec/field] and the single-view builder of
    [./spec/view] are consumed, not defined, by this file. *)
Variable NULL_FIELD : IViewField.
Variable SingleView : Type.
Variable getSingleView : SingleViewProps → SingleView.

(** [rowFacetField] / [colFacetField] (lines 150-154): the field bound to the
    [row] / [column] channel of every view. *)
Definition facetField (fields : list IViewField) : IViewField :=
  last_or NULL_FIELD (leftFacetFields fields).

(** [f ? f : NULL_FIELD] *)
Definition or_null (f : option (Obj IViewField)) : IViewField :=
  default NULL_FIELD (oval <$> f).

(** A spec handed to [embed]: the shared top-level keys and the fragment of
    the single-view builder ([{...commonSpec, ...singleView}] with [params]
    restored from the common spec). Sizing keys are left out. *)
Record CompositeSpec : Type := mkSpec {
  spec_data : Obj (list IRow);
  params : list Param;
  spec_view : SingleView;
  spec_view_props : SingleViewProps;
}.

Definition channels (p : ReactVegaProps) (x y : IViewField) (hideLegend : option bool)
  : SingleViewProps :=
  mkSingleViewProps x y
    (or_null (color p)) (or_null (opacity p)) (or_null (size p))
    (or_null (shape p)) (or_null (theta p)) (or_null (radius p))
    (facetField (oval (rows p))) (facetField (oval (columns p)))
    NULL_FIELD NULL_FIELD (oval (details p))
    (defaultAggregate p) (stack p) (geomType p) hideLegend.

Definition composite (p : ReactVegaProps) (r : Rendered) (sv : SingleViewProps)
  : CompositeSpec :=
  mkSpec (dataSource p) (spec_params (oval (allFieldIds r)) (interactiveScale p))
    (getSingleView sv) sv.

(** The branch test of line 175. *)
Definition single_branch (r : Rendered) : bool :=
  Nat.leb (length (oval (rowRepeatFields r))) 1
  && Nat.leb (length (oval (colRepeatFields r))) 1.

(** The specs the effect builds, each with the index of the placeholder it is
    meant for: one spec in the single-view branch (lines 183-205), one per
    iteration of the nested loops otherwise (lines 243-272). *)
Definition compile (p : ReactVegaProps) (r : Rendered) : list (nat * CompositeSpec) :=
  let rowRepeat := oval (rowRepeatFields r) in
  let colRepeat := oval (colRepeatFields r) in
  if single_branch r then
    [(0, composite p r
           (channels p (last_or NULL_FIELD (oval (columns p)))
                       (last_or NULL_FIELD (oval (rows p))) None))]
  else
    i ← seq 0 (length rowRepeat);
    j ← seq 0 (length colRepeat);
    let hasLegend := Nat.eqb i 0 && Nat.eqb j (length colRepeat - 1) in
    [(i * length colRepeat + j,
      composite p r
        (channels p (default NULL_FIELD (colRepeat !! j))
                    (default NULL_FIELD (rowRepeat !! i))
                    (Some (negb hasLegend))))].

End WithCollaborators.

Arguments mkSpec {_} _ _ _ _.
Arguments spec_data {_} _.
Arguments params {_} _.
Arguments spec_view {_} _.
Arguments spec_view_props {_} _.
Arguments composite {_} _ _ _ _.
Arguments compile _ {_} _ _ _.

(** ** The throttle of the interaction bus (lines 230-236) *)

Record ThrottleConfig : Type := mkThrottleConfig { leading : bool; trailing : bool }.

(** [dataSource.length / 64 * rowRepeatFields.length * colRepeatFields.length].
    The operands are array lengths; on them the division by 64 and the
    products are exact in JavaScript's numbers while the product of the
    three lengths stays below 2^53, so the duration is this rational.
    (Beyond that the products are rounded; scaling by two commutes with the
    rounding.) *)
Definition throttle_duration (dataLength rowRepeatCount colRepeatCount : nat) : Q :=
  (inject_Z (Z.of_nat dataLength) / 64
   * inject_Z (Z.of_nat rowRepeatCount)
   * inject_Z (Z.of_nat colRepeatCount))%Q.

(** The third argument of [op.throttleTime]. *)
Definition throttle_config : ThrottleConfig := mkThrottleConfig false true.

(** The arguments [throttledParamStore$] is built with. *)
Definition throttledParamStore_args (p : ReactVegaProps) (r : Rendered) : Q * ThrottleConfig :=
  (throttle_duration (length (oval (dataSource p)))
     (length (oval (rowRepeatFields r))) (length (oval (colRepeatFields r))),
   throttle_config).

End Compiler.

(* ===================================================================== *)
(** * Render orchestrator and handle façade *)
(* ===================================================================== *)

Module Orchestrator.

(** Settlement of a promise returned by [embed]. *)
Inductive PromiseState : Type := Pending | Resolved | Rejected.

#[global] Instance PromiseState_eq_dec : EqDecision PromiseState.
Proof. solve_decision. Defined.

(** The renderer handle [res.view] of the embed issued by effect run
    [view_cycle] for placeholder [view_cell]. *)
Record View : Type := mkView { view_cycle : nat; view_cell : nat }.

#[global] Instance View_eq_dec : EqDecision View.
Proof. solve_decision. Defined.

Inductive Branch : Type := SingleView | RepeatedViews.

#[global] Instance Branch_eq_dec : EqDecision Branch.
Proof. solve_decision. Defined.

(** What one run of the embed effect (lines 144-343) reads from its render:
    the lengths of the repeat arrays and, per placeholder, whether
    [viewPlaceholders[k].current] is a mounted node. *)
Record EffectInput : Type := mkInput {
  in_rows : nat;
  in_cols : nat;
  in_nodes : list bool;
}.

(** One run of the embed effect. [embeds] holds the promise of every [embed]
    call of the run by placeholder index. In the repeated branch
    [viewPromises[idx]] is resolved by the last statement but one of the
    [then] callback of that embed (line 331), so it is resolved exactly when
    [embeds !! idx = Some Resolved]; [fanin_done] records that the callback
    of [Promise.all(viewPromises)] has run. *)
Record Cycle : Type := mkCycle {
  branch : Branch;
  embeds : gmap nat PromiseState;
  fanin_done : bool;
}.

(** An emission [ready$.current.next(v)], tagged with the effect run whose
    callback made it ([None]: [setUnready] of the handle). *)
Definition Emission : Type := option nat * bool.

Record State : Type := mkState {
  (** [vegaRefs.current] *)
  vegaRefs : list View;
  (** every run of the embed effect so far, oldest first; an in-flight
      embed of a superseded run is not cancelled *)
  cycles : list Cycle;
  (** the emissions of [ready$], oldest first *)
  ready_log : list Emission;
  (** the promises returned by [ready()]: [None] while pending *)
  waiters : list (option bool);
}.

Definition init : State := mkState [] [] [] [].

(** [ready$.current.next(v)] on a plain [Subject]: the value reaches the
    subscribers of that moment and is not kept. A promise of [ready()]
    subscribes through [startWith(false)] and [first(state => state)], so it
    skips [false] and resolves with the first [true] it sees. *)
Definition notify (v : bool) (w : option bool) : option bool :=
  match w with
  | None => if v then Some true else None
  | Some r => Some r
  end.

Definition ready_next (src : option nat) (v : bool) (s : State) : State :=
  mkState (vegaRefs s) (cycles s) (ready_log s ++ [(src, v)]) (notify v <$> waiters s).

(** [node]: the placeholder at [idx], or [null] past the end (line 266). *)
Definition node_at (nodes : list bool) (idx : nat) : bool :=
  if Nat.ltb idx (length nodes) then default false (nodes !! idx) else false.

(** Single-view branch, line 207:
    [viewPlaceholders.length > 0 && viewPlaceholders[0].current]. *)
Definition issue_single (nodes : list bool) : gmap nat PromiseState :=
  if Nat.ltb 0 (length nodes) && default false (nodes !! 0)
  then {[ 0 := Pending ]} else ∅.

(** Repeated branch, the nested loops of lines 243-336: an embed is issued
    for every cell whose node is present. *)
Definition issue_repeated (rows cols : nat) (nodes : list bool) : gmap nat PromiseState :=
  foldl (λ m i,
    foldl (λ m j,
      let idx := i * cols + j in
      if node_at nodes idx then <[ idx := Pending ]> m else m)
      m (seq 0 cols))
    ∅ (seq 0 rows).


(** The synchronous body of the embed effect. *)
Definition run_effect (inp : EffectInput) (s : State) : State :=
  let c :=
    if Nat.leb (in_rows inp) 1 && Nat.leb (in_cols inp) 1
    then mkCycle SingleView (issue_single (in_nodes inp)) false
    else mkCycle RepeatedViews (issue_repeated (in_rows inp) (in_cols inp) (in_nodes inp)) false in
  mkState [] (cycles s ++ [c]) (ready_log s) (waiters s).

Definition set_cycle (c : nat) (cy : Cycle) (s : State) : State :=
  mkState (vegaRefs s) (<[ c := cy ]> (cycles s)) (ready_log s) (waiters s).

Definition push_view (v : View) (s : State) : State :=
  mkState (vegaRefs s ++ [v]) (cycles s) (ready_log s) (waiters s).

(** The [then] callback of an embed. Single-view branch (lines 208-221):
    [ready$.current.next(true)] and the click listeners; the handle is not
    stored. Repeated branch (lines 276-333): listeners, then
    [viewResolves[idx]()] and [vegaRefs.current.push(res.view)]. *)
Definition embed_resolves (c idx : nat) (s : State) : State :=
  match cycles s !! c with
  | Some cy =>
      match embeds cy !! idx with
      | Some Pending =>
          let cy' := mkCycle (branch cy) (<[ idx := Resolved ]> (embeds cy)) (fanin_done cy) in
          match branch cy with
          | SingleView => ready_next (Some c) true (set_cycle c cy' s)
          | RepeatedViews => push_view (mkView c idx) (set_cycle c cy' s)
          end
      | _ => s
      end
  | None => s
  end.

(** A rejected embed has no handler: nothing runs. *)
Definition embed_rejects (c idx : nat) (s : State) : State :=
  match cycles s !! c with
  | Some cy =>
      match embeds cy !! idx with
      | Some Pending =>
          set_cycle c (mkCycle (branch cy) (<[ idx := Rejected ]> (embeds cy)) (fanin_done cy)) s
      | _ => s
      end
  | None => s
  end.

(** Every promise of [viewPromises] is resolved (the holes of the array
    count as resolved for [Promise.all]). *)
Definition all_resolved (cy : Cycle) : bool :=
  bool_decide (map_Forall (λ _ st, st = Resolved) (embeds cy)).

(** The callback of [Promise.all(viewPromises)] (lines 337-339). *)
Definition fan_in (c : nat) (s : State) : State :=
  match cycles s !! c with
  | Some cy =>
      if bool_decide (branch cy = RepeatedViews) && negb (fanin_done cy) && all_resolved cy
      then ready_next (Some c) true
             (set_cycle c (mkCycle (branch cy) (embeds cy) true) s)
      else s
  | None => s
  end.

(** What can happen to a mounted component: React runs the embed effect; an
    embed settles; the fan-in callback runs; the host calls the handle. *)
Inductive Event : Type :=
  | RunEffect (inp : EffectInput)
  | EmbedResolves (c idx : nat)
  | EmbedRejects (c idx : nat)
  | FanIn (c : nat)
  | SetUnready
  | SetReady
  | CallReady.

Definition step (s : State) (e : Event) : State :=
  match e with
  | RunEffect inp => run_effect inp s
  | EmbedResolves c idx => embed_resolves c idx s
  | EmbedRejects c idx => embed_rejects c idx s
  | FanIn c => fan_in c s
  | SetUnready => ready_next None false s
  | SetReady => s
  | CallReady => mkState (vegaRefs s) (cycles s) (ready_log s) (waiters s ++ [None])
  end.

Definition run (s : State) (tr : list Event) : State := foldl step s tr.

(** The input of the effect run of a render with repeat arrays of the given
    lengths, all of whose placeholders hold a mounted node. *)
Definition input_of (rowRepeat colRepeat : nat) (placeholders : nat) : EffectInput :=
  mkInput rowRepeat colRepeat (replicate placeholders true).

(** The event is not a run of the embed effect in the repeated branch. *)
Definition single_view_event (e : Event) : bool :=
  match e with
  | RunEffect inp => Nat.leb (in_rows inp) 1 && Nat.leb (in_cols inp) 1
  | _ => true
  end.

(** The effect run [c] has emitted [true] on [ready$]. *)
Definition ready_emitted (c : nat) (s : State) : Prop := (Some c, true) ∈ ready_log s.

(** Some emission of [true] among [es]. *)
Definition emits_true (es : list Emission) : bool := existsb snd es.

(** The current effect run, if any. *)
Definition current_cycle (s : State) : option nat :=
  match length (cycles s) with
  | 0 => None
  | S n => Some n
  end.

(** The invariant of the reachable states. *)

Record Inv (s : State) : Prop := mkInv {
  (** emissions are made by runs that exist *)
  inv_log : ∀ c v, (Some c, v) ∈ ready_log s → c < length (cycles s);
  (** a run that has emitted [true] has all its embeds resolved *)
  inv_ready : ∀ c cy, cycles s !! c = Some cy → ready_emitted c s →
              map_Forall (λ _ st, st = Resolved) (embeds cy);
  (** a single-view run issues its embed for placeholder 0 *)
  inv_single : ∀ c cy idx st, cycles s !! c = Some cy → branch cy = SingleView →
               embeds cy !! idx = Some st → idx = 0;
}.

End Orchestrator.

(* ===================================================================== *)
(** * The imperative handle: export and download (lines 411-447) *)
(* ===================================================================== *)

Module Facade.
Import Orchestrator.

(** [new File([d], name)] *)
Record File : Type := mkFile { file_bits : string; file_name : string }.

(** A click on a temporary anchor: the browser saves [href] as [download]. *)
Record Save : Type := mkSave { download : string; href : string }.

Definition decimal (n : N) : string := NilEmpty.string_of_uint (N.to_uint n).

(** [s.padStart(targetLength, '0')] *)
Definition padStart0 (targetLength : nat) (s : string) : string :=
  String.concat "" (replicate (targetLength - String.length s) "0") +:+ s.

(** The default of the [filename] parameter:
    [`gw chart ${Date.now() % 1_000_000}`.padStart(6, '0')]. *)
Definition default_filename (now : N) : string :=
  padStart0 6 ("gw chart " +:+ decimal (now mod 1000000)%N).

(** [`${filename}${data.length > 1 ? `_${i + 1}` : ''}.ext`] *)
Definition save_name (filename : string) (count i : nat) (ext : string) : string :=
  filename +:+ (if Nat.ltb 1 count then "_" +:+ decimal (N.of_nat (i + 1)) else "") +:+ ext.

Fixpoint strip_prefix (pre s : string) : option string :=
  match pre with
  | EmptyString => Some s
  | String a pre' =>
      match s with
      | String b s' => if Ascii.eqb a b then strip_prefix pre' s' else None
      | EmptyString => None
      end
  end.

(** [d.replace(/^data:image\/[^;]/, 'data:application/octet-stream')]: the
    pattern takes the prefix and one further character that is not [;]. *)
Definition octet_stream (d : string) : string :=
  match strip_prefix "data:image/" d with
  | Some (String c rest) =>
      if Ascii.eqb c ";"%char then d else "data:application/octet-stream" +:+ rest
  | _ => d
  end.

Section WithRenderer.

(** The export operations of the renderer handle and the browser's object
    URLs are collaborators. *)
Variable Canvas : Type.
Variable toSVG : View → string.
Variable toCanvas : View → option nat → Canvas.
Variable toDataURL : Canvas → string → option nat → string.
Variable createObjectURL : File → string.

(** [Promise.all(vegaRefs.current.map(view => view.toSVG()))] *)
Definition getSVGData (s : State) : list string := toSVG <$> vegaRefs s.

Definition getCanvasData (s : State) : list string :=
  let canvases := (λ view, toCanvas view None) <$> vegaRefs s in
  (λ canvas, toDataURL canvas "image/png" None) <$> canvases.

(** The downloads return the saves they triggered (the clicks, in order)
    and the value the returned promise resolves to: the array [files]. *)
Definition downloadSVG (s : State) (filename : string) : list Save * list string :=
  let data := toSVG <$> vegaRefs s in
  let files : list string := [] in
  let clicks :=
    imap (λ i d,
      let file := mkFile d (save_name filename (length data) i ".svg") in
      let url := createObjectURL file in
      mkSave (file_name file) url) data in
  (clicks, files).

Definition downloadPNG (s : State) (filename : string) : list Save * list string :=
  let canvases := (λ view, toCanvas view (Some 2)) <$> vegaRefs s in
  let data := (λ canvas, toDataURL canvas "image/png" (Some 1)) <$> canvases in
  let files : list string := [] in
  let clicks :=
    imap (λ i d,
      mkSave (save_name filename (length data) i ".png") (octet_stream d)) data in
  (clicks, files).

End WithRenderer.

End Facade.

(* ===================================================================== *)
(** * Interaction bus: cross-view selection relay (lines 229-240, 277-315) *)
(* ===================================================================== *)

Module Bus.

Definition BRUSH_SIGNAL_NAME : string := "__gw_brush__".
Definition POINT_SIGNAL_NAME : string := "__gw_point__".

(** [`${name}_store`] *)
Definition store_of (name : string) : string := name +:+ "_store".

(** [name.replace(/_store$/, '')] *)
Fixpoint strip_store (name : string) : string :=
  match name with
  | EmptyString => EmptyString
  | String c rest =>
      if String.eqb name "_store" then EmptyString else String c (strip_store rest)
  end.

(** The selection stores of an embedded view (lines 277-279): the names of
    [res.vgSpec.data] that are one of the two known stores, without suffix. *)
Definition paramStores (dataNames : list string) : list string :=
  strip_store <$>
    List.filter
      (λ name, bool_decide (name ∈ (store_of <$> [BRUSH_SIGNAL_NAME; POINT_SIGNAL_NAME])))
      dataNames.

(** The [data] of an entry: [view.getState().data?.[store] ?? null], i.e.
    [null] or the array of selected tuples (possibly empty). *)
Inductive Payload : Type :=
  | PNull
  | PTuples (tuples : list string).

#[global] Instance Payload_eq_dec : EqDecision Payload.
Proof. solve_decision. Defined.

(** [data ?? null] *)
Definition or_null (d : option (list string)) : Payload :=
  match d with
  | Some ts => PTuples ts
  | None => PNull
  end.

(** [!entry.data]: an array, even an empty one, is truthy. *)
Definition falsy (d : Payload) : bool :=
  match d with
  | PNull => true
  | PTuples _ => false
  end.

(** The emptiness test of the emitting side (line 291):
    [!data || (Array.isArray(data) && data.length === 0)]. *)
Definition is_empty (d : Payload) : bool :=
  match d with
  | PNull => true
  | PTuples ts => Nat.eqb (length ts) 0
  end.

Record ParamStoreEntry : Type := mkEntry {
  signal : string;
  (** the view the entry comes from; used against retransmission *)
  source : nat;
  data : Payload;
}.

(** One iteration of [for (const param of paramStores)]: a signal listener
    and a bus subscriber of view [tap_view] that share [noBroadcasting]. *)
Record Tap : Type := mkTap {
  tap_view : nat;
  tap_param : string;
  noBroadcasting : bool;
}.

(** A call [res.view.setState({ data: { [key]: data } })]. *)
Record Write : Type := mkWrite {
  w_view : nat;
  w_key : string;
  w_data : Payload;
}.

Record State : Type := mkState {
  (** the taps, in the order their subscriptions were made *)
  taps : list Tap;
  (** per view, [getState().data]: the tuples of each store *)
  view_data : gmap nat (gmap string (list string));
  (** the entries pushed into [combinedParamStore$], oldest first *)
  combinedParamStore : list ParamStoreEntry;
  (** the state writes made by subscribers, oldest first *)
  writes : list Write;
  crossFilterTriggerIdx : Z;
}.

(** The bus before any embed of the cycle has resolved; the component-level
    [crossFilterTriggerIdx] keeps its value. *)
Definition empty (idx : Z) : State := mkState [] ∅ [] [] idx.

(** The wiring part of the [then] callback of the embed of view [sourceId]
    whose compiled spec has data sets [dataNames]. *)
Definition attach (sourceId : nat) (dataNames : list string) (s : State) : State :=
  mkState (taps s ++ ((λ param, mkTap sourceId param false) <$> paramStores dataNames))
    (view_data s) (combinedParamStore s) (writes s) (crossFilterTriggerIdx s).

(** [res.view.getState().data?.[key]] *)
Definition get_store (s : State) (view : nat) (key : string) : option (list string) :=
  view_data s !! view ≫= λ d, d !! key.

Definition set_tap (k : nat) (t : Tap) (s : State) : State :=
  mkState (<[ k := t ]> (taps s)) (view_data s) (combinedParamStore s) (writes s)
    (crossFilterTriggerIdx s).

(** The signal listener of tap [k] (lines 284-300), called by the renderer
    with the name of the signal it was registered for. *)
Definition signal_listener (k : nat) (s : State) : State :=
  match taps s !! k with
  | Some t =>
      if noBroadcasting t then set_tap k (mkTap (tap_view t) (tap_param t) false) s
      else
        let name := tap_param t in
        if bool_decide (name ∈ [BRUSH_SIGNAL_NAME; POINT_SIGNAL_NAME]) then
          let data := or_null (get_store s (tap_view t) (store_of name)) in
          mkState (taps s) (view_data s)
            (combinedParamStore s ++ [mkEntry name (tap_view t) data])
            (writes s)
            (if is_empty data then (-1)%Z else crossFilterTriggerIdx s)
        else s
  | None => s
  end.

(** The test that makes a subscriber return at once (line 302). *)
Definition ignored (entry : ParamStoreEntry) (t : Tap) : bool :=
  Nat.eqb (source entry) (tap_view t) || falsy (data entry).

(** [setState]: the named store of the view is replaced. *)
Definition set_store (view : nat) (key : string) (d : Payload)
    (vd : gmap nat (gmap string (list string))) : gmap nat (gmap string (list string)) :=
  match d with
  | PTuples ts => <[ view := <[ key := ts ]> (default ∅ (vd !! view)) ]> vd
  | PNull => vd
  end.

(** The subscriber of tap [k] (lines 301-311) receiving [entry]. *)
Definition subscriber (entry : ParamStoreEntry) (s : State) (k : nat) : State :=
  match taps s !! k with
  | Some t =>
      if ignored entry t then s
      else
        let key := store_of (signal entry) in
        mkState (<[ k := mkTap (tap_view t) (tap_param t) true ]> (taps s))
          (set_store (tap_view t) key (data entry) (view_data s))
          (combinedParamStore s)
          (writes s ++ [mkWrite (tap_view t) key (data entry)])
          (crossFilterTriggerIdx s)
  | None => s
  end.

(** The throttled channel passes [entry] on: every subscriber receives it,
    in subscription order. (Each subscription runs the throttle on its own;
    [deliver] is the case of an entry that the throttle of every
    subscription lets through, [subscriber] that of a single one.) *)
Definition deliver (entry : ParamStoreEntry) (s : State) : State :=
  foldl (subscriber entry) s (seq 0 (length (taps s))).

(** A subscription of view [w] writes into view [v] on receiving [e]. *)
Definition accepts (e : ParamStoreEntry) (v w : nat) : bool :=
  Nat.eqb w v && negb (Nat.eqb (source e) w || falsy (data e)).

(** State writes into [view]. *)
Definition writes_into (view : nat) (s : State) : nat :=
  length (List.filter (λ w, Nat.eqb (w_view w) view) (writes s)).

(** Subscriptions of [view]: one per selection store of the view. *)
Definition taps_of (view : nat) (ts : list Tap) : nat :=
  length (List.filter (λ t, Nat.eqb (tap_view t) view) ts).

End Bus.

(* ===================================================================== *)
(** * [Renderer]: the data-pipeline effect (renderer/index.tsx, lines 40-68) *)
(* ===================================================================== *)

Module Renderer.

(** Settlement of a promise. *)
Inductive Settled (E A : Type) : Type :=
  | Fulfilled (a : A)
  | Rejected (err : E).
Arguments Fulfilled {E A} _.
Arguments Rejected {E A} _.

(** An asynchronous computation over component state [S], run to its
    settlement: the state its callbacks leave and the outcome. *)
Definition Async (S E A : Type) : Type := S → S * Settled E A.

(** [p.then(f)] *)
Definition then_ {S E A B} (p : Async S E A) (f : A → Async S E B) : Async S E B :=
  λ s, match p s with
       | (s', Fulfilled a) => f a s'
       | (s', Rejected err) => (s', Rejected err)
       end.

(** [p.catch(h)] *)
Definition catch_ {S E A} (p : Async S E A) (h : E → Async S E A) : Async S E A :=
  λ s, match p s with
       | (s', Fulfilled a) => (s', Fulfilled a)
       | (s', Rejected err) => h err s'
       end.

(** A promise handed back by a service: it does not touch component state. *)
Definition service {S E A} (r : Settled E A) : Async S E A := λ s, (s, r).

(** The [op] of a view query. *)
Inductive QueryOp : Type := aggregate | raw.

(** The third argument of [applyViewQuery] (lines 50-54). *)
Record ViewQuery : Type := mkQuery {
  op : QueryOp;
  groupBy : list string;
  agg : gmap string (option string);
}.

Section WithServices.

(** Types and services of [../interfaces], [../store] and [../services]. *)
Variable Error : Type.
Variable IFilterField : Type.
Variable IVisualConfig : Type.
Variable DraggableFieldState : Type.
Variable defaultAggregated : IVisualConfig → bool.
Variable applyFilter : list IRow → list IFilterField → Settled Error (list IRow).
Variable transformDataService : list IRow → list IViewField → Settled Error (list IRow).
Variable applyViewQuery :
  list IRow → list IViewField → ViewQuery → Settled Error (list IRow).

(** What the effect reads from the stores. *)
Record Stores : Type := mkStores {
  dataSource : list IRow;
  allFields : list IViewField;
  viewFilters : list IFilterField;
  viewDimensions : list IViewField;
  viewMeasures : list IViewField;
  visualConfig : IVisualConfig;
  draggableFieldState : DraggableFieldState;
  (** [targetRef.current] is set *)
  target : bool;
}.

(** The [useState] cells of [Renderer], the console and the calls made on
    the handle. *)
Record State : Type := mkState {
  waiting : bool;
  viewConfig : IVisualConfig;
  encodings : DraggableFieldState;
  viewData : list IRow;
  console : list Error;
  setUnready_calls : nat;
}.

Definition setWaiting (b : bool) (s : State) : State :=
  mkState b (viewConfig s) (encodings s) (viewData s) (console s) (setUnready_calls s).

(** [Object.fromEntries(meas.map(f => [f.fid, f.aggName]))]: a later entry
    replaces an earlier one with the same key. *)
Definition agg_of (meas : list IViewField) : gmap string (option string) :=
  foldl (λ m f, <[ fid f := aggName f ]> m) ∅ meas.

(** The second [then] callback (lines 45-55). *)
Definition view_query (st : Stores) (d : list IRow) : Settled Error (list IRow) :=
  let dims := viewDimensions st in
  let meas := viewMeasures st in
  let config := visualConfig st in
  applyViewQuery d (dims ++ meas)
    (mkQuery (if defaultAggregated config then aggregate else raw)
       (fid <$> dims) (agg_of meas)).

(** The upstream pipeline: filter, transform, view query. *)
Definition pipeline (st : Stores) : Async State Error (list IRow) :=
  then_ (then_ (service (applyFilter (dataSource st) (viewFilters st)))
           (λ data, service (transformDataService data (allFields st))))
    (λ d, service (view_query st d)).

(** The third [then] callback (lines 56-63): one batched update. *)
Definition on_data (st : Stores) (data : list IRow) : Async State Error unit :=
  λ s, (mkState false (visualConfig st) (draggableFieldState st) data
          (console s) (setUnready_calls s),
        Fulfilled tt).

(** The [catch] callback (lines 64-67). *)
Definition on_error (err : Error) : Async State Error unit :=
  λ s, (mkState false (viewConfig s) (encodings s) (viewData s)
          (console s ++ [err]) (setUnready_calls s),
        Fulfilled tt).

(** The effect: the synchronous prologue, then the promise chain. The
    outcome is that of the last promise of the chain. *)
Definition dataEffect (st : Stores) : Async State Error unit :=
  λ s,
    let s1 := mkState true (viewConfig s) (encodings s) (viewData s) (console s)
                (if target st then S (setUnready_calls s) else setUnready_calls s) in
    catch_ (then_ (pipeline st) (on_data st)) on_error s1.

End WithServices.

Arguments mkStores {_ _ _} _ _ _ _ _ _ _ _.
Arguments dataSource {_ _ _} _.
Arguments allFields {_ _ _} _.
Arguments viewFilters {_ _ _} _.
Arguments viewDimensions {_ _ _} _.
Arguments viewMeasures {_ _ _} _.
Arguments visualConfig {_ _ _} _.
Arguments draggableFieldState {_ _ _} _.
Arguments target {_ _ _} _.
Arguments mkState {_ _ _} _ _ _ _ _ _.
Arguments waiting {_ _ _} _.
Arguments viewConfig {_ _ _} _.
Arguments encodings {_ _ _} _.
Arguments viewData {_ _ _} _.
Arguments console {_ _ _} _.
Arguments setUnready_calls {_ _ _} _.
Arguments view_query {_ _ _ _} _ _ _ _.
Arguments pipeline {_ _ _ _} _ _ _ _ _.
Arguments on_data {_ _ _ _} _ _.
Arguments on_error {_ _ _} _.
Arguments dataEffect {_ _ _ _} _ _ _ _ _.

End Renderer.

(* ===================================================================== *)
(** * Concrete inputs used by the examples below *)
(* ===================================================================== *)

Module Examples.
Import Planner.

Definition region : IViewField := mkField "region" dimension None.
Definition city : IViewField := mkField "city" dimension None.
Definition category : IViewField := mkField "category" dimension None.
Definition sales : IViewField := mkField "sales" measure (Some "sum").
Definition profit : IViewField := mkField "profit" measure (Some "sum").

(** A null field, as [./spec/field] could define it. *)
Definition null_field : IViewField := mkField "" measure (Some "sum").

(** Props with the given axis arrays and shape field, everything else unset. *)
Definition props_of (rs cs : Obj (list IViewField)) (sh : option (Obj IViewField))
  : ReactVegaProps :=
  mkProps rs cs (mkObj (Outer 100) []) None None None sh None None
    (mkObj (Outer 101) []) false true "stack" "auto".

(** One rows array, kept by the parent across two renders. *)
Definition rows_region : Obj (list IViewField) := mkObj (Outer 0) [region].

(** First render: one measure on the columns. *)
Definition props_one_measure : ReactVegaProps :=
  props_of rows_region (mkObj (Outer 1) [sales]) None.

(** Second render: the same rows array, a new columns array with two
    measures. *)
Definition props_two_measures : ReactVegaProps :=
  props_of rows_region (mkObj (Outer 2) [sales; profit]) None.

(** A single chart with a field on the shape channel. *)
Definition props_with_shape : ReactVegaProps :=
  props_of rows_region (mkObj (Outer 1) [sales]) (Some (mkObj (Outer 3) category)).

(** ** Traces of the orchestrator *)

Import Orchestrator.

(** A single chart: the effect of the mounting render finds no placeholder;
    the effect of the next render embeds into the one placeholder, and the
    embed resolves. *)
Definition single_view_trace : list Event :=
  [RunEffect (input_of 1 1 0); RunEffect (input_of 1 1 1); EmbedResolves 1 0].

(** A 1 x 3 grid whose cell 2 resolves last; the fan-in callback is tried
    before and after. *)
Definition three_cells_trace : list Event :=
  [RunEffect (input_of 1 3 3); EmbedResolves 0 1; EmbedResolves 0 0; FanIn 0;
   EmbedResolves 0 2; FanIn 0].


(** A 1 x 3 grid whose cell 1 rejects. *)
Definition rejecting_trace : list Event :=
  [RunEffect (input_of 1 3 3); EmbedResolves 0 0; EmbedRejects 0 1; EmbedResolves 0 2;
   FanIn 0].

(** ** States of the interaction bus *)

(** Two views, each with a brush store, attached in grid order. *)
Definition two_brush_views : Bus.State :=
  Bus.attach 1 ["source_0"; "__gw_brush___store"]
    (Bus.attach 0 ["source_0"; "__gw_brush___store"] (Bus.empty (-1))).

(** Two views, each with a brush store and a point store. *)
Definition two_views_two_stores : Bus.State :=
  Bus.attach 1 ["__gw_brush___store"; "__gw_point___store"]
    (Bus.attach 0 ["__gw_brush___store"; "__gw_point___store"] (Bus.empty (-1))).

(** View 0 reports a cleared brush: the store is the empty array. *)
Definition cleared_brush : Bus.ParamStoreEntry :=
  Bus.mkEntry Bus.BRUSH_SIGNAL_NAME 0 (Bus.PTuples []).

(** View 0 reports a brush over one tuple. *)
Definition brush_one : Bus.ParamStoreEntry :=
  Bus.mkEntry Bus.BRUSH_SIGNAL_NAME 0 (Bus.PTuples ["tuple"]).

(** ** The data pipeline of [Renderer] *)

(** A filter service that rejects with ["network"]; transform and view
    query hand their input on. *)
Definition failing_filter (_ : list IRow) (_ : list unit)
  : Renderer.Settled string (list IRow) := Renderer.Rejected "network".
Definition pass_on (d : list IRow) (_ : list IViewField)
  : Renderer.Settled string (list IRow) := Renderer.Fulfilled d.
Definition query_pass_on (d : list IRow) (_ : list IViewField) (_ : Renderer.ViewQuery)
  : Renderer.Settled string (list IRow) := Renderer.Fulfilled d.

Definition some_stores : Renderer.Stores unit bool unit :=
  Renderer.mkStores [] [region; sales] [] [region] [sales] true tt true.

(** A component that shows one row and has logged nothing. *)
Definition showing_one_row : Renderer.State string bool unit :=
  Renderer.mkState false true tt [[("region", "east")]] [] 0.

End Examples.

(* ===================================================================== *)
(** * Sizes of the repeated views (lines 224-228) *)
(* ===================================================================== *)

From Stdlib Require Import Qround DecimalN Sorted.

Module Layout.

(** The sizing keys of a spec; [None] stands for a size that is not a
    finite number. *)
Record Sizing : Type := mkSizing {
  spec_width : option Z;
  spec_height : option Z;
  autosize : string;
}.

(** [Math.floor(total / count) - 5] for a total given as a rational and a
    positive count. A count of 0 makes the quotient infinite or [NaN]: no
    finite size. The division is taken exactly; on pixel sizes and grid
    counts JavaScript's rounding of the quotient does not change its floor. *)
Definition cell_size (total : Q) (count : nat) : option Z :=
  if Nat.eqb count 0 then None
  else Some (Qfloor (total / inject_Z (Z.of_nat count)) - 5)%Z.

(** The keys set in the repeated branch when [layoutMode === 'fixed']. *)
Definition repeated_sizing (layoutMode : string) (width height : Q)
    (rowRepeatCount colRepeatCount : nat) : option Sizing :=
  if String.eqb layoutMode "fixed" then
    Some (mkSizing (cell_size width colRepeatCount) (cell_size height rowRepeatCount) "fit")
  else None.

End Layout.

(* ===================================================================== *)
(** * Further definitions for the orchestrator *)
(* ===================================================================== *)

Module OrchestratorMore.
Import Orchestrator.

(** Emissions of [true] made by run [c]. *)
Definition ready_count (c : nat) (log : list Emission) : nat :=
  length (List.filter (λ em, bool_decide (em = (Some c, true))) log).

(** What the reachable states keep true about the stored handles and the
    emissions. *)
Record HandleInv (s : State) : Prop := mkHandleInv {
  (** no handle is stored twice *)
  hinv_nodup : NoDup (vegaRefs s);
  (** a stored handle comes from a resolved embed of a repeated-views run *)
  hinv_resolved : ∀ v, v ∈ vegaRefs s →
    ∃ cy, cycles s !! view_cycle v = Some cy ∧ branch cy = RepeatedViews
          ∧ embeds cy !! view_cell v = Some Resolved;
  (** the handles of the current run are all stored *)
  hinv_current : ∀ c cy idx, current_cycle s = Some c → cycles s !! c = Some cy →
    branch cy = RepeatedViews → embeds cy !! idx = Some Resolved →
    mkView c idx ∈ vegaRefs s;
  (** a repeated-views run that has emitted has run its fan-in callback *)
  hinv_fanin : ∀ c cy, cycles s !! c = Some cy → branch cy = RepeatedViews →
    ready_emitted c s → fanin_done cy = true;
  (** each run has emitted [true] at most once *)
  hinv_once : ∀ c, ready_count c (ready_log s) ≤ 1;
  (** runs emit [true], the handle emits [false] *)
  hinv_values : ∀ src v, (src, v) ∈ ready_log s → v = bool_decide (src ≠ None);
}.

End OrchestratorMore.

(* ===================================================================== *)
(** * Click pass-through (react-vega.tsx, lines 58-68 and 110-119) *)
(* ===================================================================== *)

Module GeomClick.

Section WithEvents.

(** The native click event and the type of a handler are opaque. *)
Variable ScenegraphEvent : Type.
Variable Handler : Type.

(** The value of the point selection: an object; [Object.keys] counts its
    entries. *)
Definition Values : Type := gmap string (list string).

(** What reaches the two subjects, and the effect that subscribes. *)
Inductive Event : Type :=
  | Click (e : ScenegraphEvent)            (** [click$.next(e)] *)
  | Selection (values : Values)            (** [selection$.next(values)] *)
  | Subscribe (onGeomClick : option Handler).
      (** the effect of lines 110-119 runs (again): the previous
          subscription is dropped, a new one is made *)

(** A call [onGeomClick(values, e)]. *)
Record Call : Type := mkCall {
  call_handler : Handler;
  call_values : Values;
  call_event : ScenegraphEvent;
}.

(** One mounted component: whether it is subscribed to [geomClick$], the
    click its [withLatestFrom] has seen last since it subscribed, the
    handler its subscriber closes over, and the calls made so far. *)
Record State : Type := mkState {
  subscribed : bool;
  latest : option ScenegraphEvent;
  handler : option Handler;
  calls : list Call;
}.

Definition init : State := mkState false None None [].

(** The filter of lines 62-67. *)
Definition non_empty (values : Values) : bool := Nat.ltb 0 (size values).

Definition step (s : State) (ev : Event) : State :=
  match ev with
  | Click e =>
      if subscribed s then mkState true (Some e) (handler s) (calls s) else s
  | Selection values =>
      if subscribed s then
        match latest s with
        | Some e =>
            (* [withLatestFrom] emits the pair; the filter and the handler test follow *)
            if non_empty values then
              match handler s with
              | Some h => mkState true (latest s) (handler s) (calls s ++ [mkCall h values e])
              | None => s
              end
            else s
        | None => s
        end
      else s
  | Subscribe h => mkState true None h (calls s)
  end.

Definition run (s : State) (tr : list Event) : State := foldl step s tr.

(** A call that the events account for. *)
Definition justified (tr : list Event) (c : Call) : Prop :=
  non_empty (call_values c) = true
  ∧ Click (call_event c) ∈ tr
  ∧ Selection (call_values c) ∈ tr
  ∧ Subscribe (Some (call_handler c)) ∈ tr.

(** The event is an emission of [selection$]. *)
Definition is_selection (ev : Event) : bool :=
  match ev with
  | Selection _ => true
  | _ => false
  end.

End WithEvents.

Arguments Click {_ _} _.
Arguments Selection {_ _} _.
Arguments Subscribe {_ _} _.
Arguments mkCall {_ _} _ _ _.
Arguments call_handler {_ _} _.
Arguments call_values {_ _} _.
Arguments call_event {_ _} _.
Arguments mkState {_ _} _ _ _ _.
Arguments subscribed {_ _} _.
Arguments latest {_ _} _.
Arguments handler {_ _} _.
Arguments calls {_ _} _.
Arguments init {_ _}.
Arguments step {_ _} _ _.
Arguments run {_ _} _ _.
Arguments is_selection {_ _} _.
Arguments justified {_ _} _ _.

End GeomClick.

(* ===================================================================== *)
(** * [KanariesServerDataLoader] (dataLoader/kanariesServerDataLoader.ts) *)
(* ===================================================================== *)

Module DataLoader.
Import Renderer.

(** The types of [../interfaces] as this file uses them. A cell of a row is
    a number or a text. *)
Inductive Cell : Type :=
  | Num (z : Z)
  | Text (s : string).

#[global] Instance Cell_eq_dec : EqDecision Cell.
Proof. solve_decision. Defined.

(** The value of a filter rule: a [Set] (its members in insertion order)
    or an array. *)
Inductive RuleValue : Type :=
  | SetOf (members : list Cell)
  | ArrayOf (members : list Cell).

Record Rule : Type := mkRule { rule_type : string; rule_value : RuleValue }.
Record Filter : Type := mkFilter { filter_fid : string; rule : Rule }.

Record Measure : Type := mkMeasure { field : string; agg : string; asFieldKey : string }.
Record Query : Type := mkQuery {
  op : string;
  groupBy : list string;
  measures : list Measure;
}.

(** A workflow step: [type: 'filter'] with its filters, [type: 'view'] with
    its queries, or a step of another type. *)
Inductive Step : Type :=
  | FilterStep (filters : list Filter)
  | ViewStep (query : list Query)
  | OtherStep (type : string).

Record IDataQueryPayload : Type := mkPayload {
  datasetId : string;
  workflow : list Step;
}.

(** The members of a rule value, in order. *)
Definition members_of (v : RuleValue) : list Cell :=
  match v with
  | SetOf members => members
  | ArrayOf members => members
  end.

(** The value is an array, as JSON can carry it. *)
Definition is_array (v : RuleValue) : bool :=
  match v with
  | ArrayOf _ => true
  | SetOf _ => false
  end.

(** Every ['one of'] rule of the filter steps holds an array. *)
Definition sets_free (payload : IDataQueryPayload) : bool :=
  forallb (λ step,
    match step with
    | FilterStep filters =>
        forallb (λ f, negb (String.eqb (rule_type (rule f)) "one of")
                      || is_array (rule_value (rule f))) filters
    | _ => true
    end) (workflow payload).

(** What [normalise] does not touch in a filter: field, rule type, and the
    members of the value. *)
Definition filter_content (f : Filter) : string * string * list Cell :=
  (filter_fid f, rule_type (rule f), members_of (rule_value (rule f))).

Definition step_content (step : Step)
  : list (string * string * list Cell) + (list Query + string) :=
  match step with
  | FilterStep filters => inl (filter_content <$> filters)
  | ViewStep query => inr (inl query)
  | OtherStep type => inr (inr type)
  end.

(** [Array.from(value)] *)
Definition array_from (v : RuleValue) : RuleValue :=
  match v with
  | SetOf members => ArrayOf members
  | ArrayOf members => ArrayOf members
  end.

(** The recipe of [produce] in [transform] (lines 36-47): the value of
    every ['one of'] rule of every filter step becomes an array. *)
Definition normalise_filter (f : Filter) : Filter :=
  if String.eqb (rule_type (rule f)) "one of"
  then mkFilter (filter_fid f) (mkRule (rule_type (rule f)) (array_from (rule_value (rule f))))
  else f.

Definition normalise_step (step : Step) : Step :=
  match step with
  | FilterStep filters => FilterStep (normalise_filter <$> filters)
  | _ => step
  end.

Definition normalise (payload : IDataQueryPayload) : IDataQueryPayload :=
  mkPayload (datasetId payload) (normalise_step <$> workflow payload).

(** The body of a response. *)
Record IResponse : Type := mkResponse {
  success : bool;
  message : string;
  data : list (gmap string Cell);
}.

(** A rejection of the loader: [new Error(message)] thrown by [#query], a
    [TypeError] of the language, or whatever [fetch] or [res.json()]
    rejected with. *)
Inductive Failure (E : Type) : Type :=
  | Thrown (message : string)
  | TypeError
  | External (e : E).
Arguments Thrown {E} _.
Arguments TypeError {E}.
Arguments External {E} _.

(** The result of [statField]. *)
Record Stat : Type := mkStat {
  stat_values : list (option Cell * option Cell);
  stat_range : option Cell * option Cell;
}.

(** The comparator of line 96, [b[COUNT_ID] - a[COUNT_ID]]. A difference
    that is [NaN] counts as 0 for [sort]. Counts are taken to be numbers; a
    cell that is not a number gives [NaN] here. *)
Definition compare_count (countId : string) (a b : gmap string Cell) : Z :=
  match b !! countId, a !! countId with
  | Some (Num y), Some (Num x) => (y - x)%Z
  | _, _ => 0%Z
  end.

(** The count of a row as a number. *)
Definition count_of (countId : string) (row : gmap string Cell) : Z :=
  match row !! countId with
  | Some (Num z) => z
  | _ => 0%Z
  end.

(** [Array.prototype.sort] is stable: an element stays before the later
    elements it does not compare greater than. *)
Fixpoint insert_sorted {A} (cmp : A → A → Z) (x : A) (l : list A) : list A :=
  match l with
  | [] => [x]
  | y :: l' => if (cmp x y <=? 0)%Z then x :: y :: l' else y :: insert_sorted cmp x l'
  end.

Definition sort {A} (cmp : A → A → Z) (l : list A) : list A :=
  foldr (insert_sorted cmp) [] l.

Section WithServer.

Variable E : Type.

(** An HTTP response: status line and the outcome of [res.json()]. *)
Record Response : Type := mkHttp {
  status : nat;
  statusText : string;
  json : Settled E IResponse;
}.

(** [options.server] and the network. *)
Variable server : string.
Variable fetch : string → IDataQueryPayload → Settled E Response.

(** A request made: URL and body. *)
Definition Request : Type := string * IDataQueryPayload.

Definition query_url : string := server +:+ "/api/data/v1/query".

(** What [#query] makes of the answer (lines 24-32). *)
Definition read_response (res : Response) : Settled (Failure E) (list (gmap string Cell)) :=
  if Nat.eqb (status res) 200 || Nat.eqb (status res) 500 then
    match json res with
    | Fulfilled result =>
        if negb (success result) then Rejected (Thrown (message result))
        else Fulfilled (data result)
    | Rejected e => Rejected (External e)
    end
  else
    Rejected (Thrown ("Failed to query data from server. "
                      +:+ Facade.decimal (N.of_nat (status res)) +:+ ": "
                      +:+ statusText res)).

(** [#query]: one POST, then the reading of the answer. The state is the
    list of requests made. *)
Definition query (payload : IDataQueryPayload)
  : Async (list Request) (Failure E) (list (gmap string Cell)) :=
  λ log,
    (log ++ [(query_url, payload)],
     match fetch query_url payload with
     | Fulfilled res => read_response res
     | Rejected e => Rejected (External e)
     end).

(** [transform] (lines 35-49). *)
Definition transform (payload : IDataQueryPayload)
  : Async (list Request) (Failure E) (list (gmap string Cell)) :=
  query (normalise payload).

Definition COUNT_ID (fid : string) : string := "count_" +:+ fid.
Definition MIN_ID (fid : string) : string := "min_" +:+ fid.
Definition MAX_ID (fid : string) : string := "max_" +:+ fid.

Definition valuesQueryPayload (dataset_id fid : string) : IDataQueryPayload :=
  mkPayload dataset_id
    [ViewStep [mkQuery "aggregate" [fid] [mkMeasure fid "count" (COUNT_ID fid)]]].

Definition rangeQueryPayload (dataset_id fid : string) : IDataQueryPayload :=
  mkPayload dataset_id
    [ViewStep [mkQuery "aggregate" []
                 [mkMeasure fid "min" (MIN_ID fid); mkMeasure fid "max" (MAX_ID fid)]]].

(** The [values] of the result (lines 96-99): the 20 rows with the largest
    counts. *)
Definition top_values (fid : string) (valuesRes : list (gmap string Cell))
  : list (option Cell * option Cell) :=
  (λ row : gmap string Cell, (row !! fid, row !! COUNT_ID fid))
    <$> slice 0 (Some 20%Z) (sort (compare_count (COUNT_ID fid)) valuesRes).

(** [statField] (lines 51-102). The first row of the range answer is
    destructured; reading a key of [undefined] throws. *)
Definition statField (dataset_id fid : string) (values range : bool)
  : Async (list Request) (Failure E) Stat :=
  then_ (if values then query (valuesQueryPayload dataset_id fid)
         else service (Fulfilled []))
    (λ valuesRes,
       then_ (if range then query (rangeQueryPayload dataset_id fid)
              else service (Fulfilled [{[ MIN_ID fid := Num 0; MAX_ID fid := Num 0 ]}]))
         (λ rangeRows,
            service
              match rangeRows with
              | rangeRes :: _ =>
                  Fulfilled (mkStat (top_values fid valuesRes)
                               (rangeRes !! MIN_ID fid, rangeRes !! MAX_ID fid))
              | [] => Rejected TypeError
              end)).

End WithServer.

Arguments mkHttp {_} _ _ _.
Arguments status {_} _.
Arguments statusText {_} _.
Arguments json {_} _.
Arguments read_response {_} _.
Arguments query {_} _ _ _.
Arguments transform {_} _ _ _.
Arguments statField {_} _ _ _ _ _ _.

End DataLoader.

(* ===================================================================== *)
(** * Further concrete inputs *)
(* ===================================================================== *)

Module MoreExamples.
Import Planner Examples.

(** The values of the mounting render of [p]. *)
Definition mount_rendered (p : ReactVegaProps) : Rendered :=
  snd (fst ((h <- mount ;; pass p h) 0)).

(** The mounting pass of [p]: hook state, rendered values and next free
    object identity. *)
Definition mount_pass (p : ReactVegaProps) : HookState * Rendered * nat :=
  pass p (fst (mount 0)) (snd (mount 0)).

(** A call of [ready()] before the single chart is embedded. *)
Definition waiting_trace : list Orchestrator.Event :=
  [Orchestrator.CallReady; Orchestrator.RunEffect (Orchestrator.input_of 1 1 1);
   Orchestrator.EmbedResolves 0 0].

(** Three rows of a count query on [city]. *)
Definition count_rows : list (gmap string DataLoader.Cell) :=
  [ {[ "city" := DataLoader.Text "Lyon"; "count_city" := DataLoader.Num 1 ]};
    {[ "city" := DataLoader.Text "Oslo"; "count_city" := DataLoader.Num 3 ]};
    {[ "city" := DataLoader.Text "Rome"; "count_city" := DataLoader.Num 2 ]} ].

(** A server that answers every query with status 200 and the given rows. *)
Definition answering (rows : list (gmap string DataLoader.Cell))
  : string → DataLoader.IDataQueryPayload → Renderer.Settled unit (DataLoader.Response unit) :=
  λ _ _, Renderer.Fulfilled
           (DataLoader.mkHttp 200 "OK"
              (Renderer.Fulfilled (DataLoader.mkResponse true "" rows))).

(** The statistics of [city] with its values and without its range. *)
Definition city_stat : DataLoader.Stat :=
  DataLoader.mkStat
    [ (Some (DataLoader.Text "Oslo"), Some (DataLoader.Num 3));
      (Some (DataLoader.Text "Rome"), Some (DataLoader.Num 2));
      (Some (DataLoader.Text "Lyon"), Some (DataLoader.Num 1)) ]
    (Some (DataLoader.Num 0), Some (DataLoader.Num 0)).

(** A click, a change of handler, and then the selection of the click. *)
Definition resubscribed_trace : list (GeomClick.Event nat string) :=
  [GeomClick.Selection {[ "city" := ["Oslo"] ]}].

End MoreExamples.

(* ===================================================================== *)
(** * Facts about the JavaScript helpers *)
(* ===================================================================== *)

Section JSFacts.

Lemma clamp_index_0 len : clamp_index len 0 = 0.
Proof. unfold clamp_index. simpl. lia. Qed.

Lemma clamp_index_m1 len : clamp_index len (-1) = len - 1.
Proof. unfold clamp_index. simpl. lia. Qed.

(** [l.slice(0, -1)] drops the last element. *)
Lemma slice_all_but_last {A} (l : list A) : slice 0 (Some (-1)%Z) l = removelast l.
Proof.
  unfold slice. rewrite clamp_index_0, clamp_index_m1, drop_0, Nat.sub_0_r.
  induction l as [|a l IH] using rev_ind; [done|].
  rewrite removelast_last, length_app. simpl.
  replace (length l + 1 - 1) with (length l) by lia.
  by rewrite take_app_length.
Qed.

(** [l.slice(-1)] is the last element alone, or nothing. *)
Lemma slice_last {A} (l : list A) :
  slice (-1) None l = match last l with Some x => [x] | None => [] end.
Proof.
  unfold slice. rewrite clamp_index_m1.
  induction l as [|a l IH] using rev_ind; [done|].
  rewrite last_snoc, length_app. simpl.
  replace (length l + 1 - 1) with (length l) by lia.
  rewrite drop_app_length. simpl. by replace (length l + 1 - length l) with 1 by lia.
Qed.

Lemma last_or_last {A} (d : A) (l : list A) : Compiler.last_or d l = default d (last l).
Proof.
  unfold Compiler.last_or. destruct l as [|a l] using rev_ind; [done|].
  rewrite last_snoc, length_app. simpl.
  replace (0 <? length l + 1)%nat with true by (symmetry; apply Nat.ltb_lt; lia).
  replace (length l + 1 - 1) with (length l + 0) by lia.
  rewrite lookup_app_r by lia. by replace (length l + 0 - length l) with 0 by lia.
Qed.

End JSFacts.

(* ===================================================================== *)
(** * The grid planner *)
(* ===================================================================== *)

Section PlannerFacts.
Import Planner.

Lemma is_measure_not_dimension f : is_measure f = negb (is_dimension f).
Proof. unfold is_measure, is_dimension. by destruct (analyticType f). Qed.

(** An axis without measures consists of dimensions only. *)
Lemma dims_no_measure fields : meas fields = [] → dims fields = fields.
Proof.
  unfold meas, dims. induction fields as [|f fs IH]; [done|]. simpl.
  rewrite is_measure_not_dimension. destruct (is_dimension f); simpl; [|done].
  intros H. by rewrite IH.
Qed.

(** With a measure on the axis, the repeat fields are its measures. *)
Lemma repeatFields_measures fields :
  meas fields ≠ [] → repeatFields (dims fields) (meas fields) = meas fields.
Proof. unfold repeatFields. by destruct (meas fields). Qed.

(** Without one, they are the last (dimension) field alone, if any. *)
Lemma repeatFields_no_measure fields :
  meas fields = [] →
  repeatFields (dims fields) (meas fields)
  = match last fields with Some f => [f] | None => [] end.
Proof.
  intros H. unfold repeatFields. rewrite H. simpl.
  by rewrite (dims_no_measure _ H), slice_last.
Qed.

Lemma repeatFields_no_measure_length fields :
  meas fields = [] → length (repeatFields (dims fields) (meas fields)) ≤ 1.
Proof.
  intros H. rewrite (repeatFields_no_measure _ H). destruct (last fields); simpl; lia.
Qed.

(** No measure on either axis: one view. *)
Lemma viewNum_no_measure rs cs :
  meas rs = [] → meas cs = [] →
  viewNum (repeatFields (dims rs) (meas rs)) (repeatFields (dims cs) (meas cs)) = 1.
Proof.
  intros Hr Hc. unfold viewNum.
  pose proof (repeatFields_no_measure_length _ Hr).
  pose proof (repeatFields_no_measure_length _ Hc). nia.
Qed.

Lemma nextViews_length views n : ∀ i k, length (fst (nextViews views i n k)) = n.
Proof.
  induction n as [|n IH]; intros i k; [done|].
  simpl. unfold alloc_bind.
  destruct (match views !! i with Some r => alloc_ret r | None => _ end k) as [v k'].
  specialize (IH (S i) k'). destruct (nextViews views (S i) n k') as [rest k''].
  simpl in *. by rewrite IH.
Qed.

(** On mount every memo runs its callback on the props of that render, and
    the placeholder effect sizes the placeholder array from the result. *)
Lemma mount_pass p :
  ∃ h r, run_passes [p] = (h, Some r)
    ∧ oval (rowMeas r) = meas (oval (rows p))
    ∧ oval (colMeas r) = meas (oval (columns p))
    ∧ oval (rowFacetFields r) = facetFields (dims (oval (rows p)))
    ∧ oval (colFacetFields r) = facetFields (dims (oval (columns p)))
    ∧ oval (rowRepeatFields r)
      = repeatFields (dims (oval (rows p))) (meas (oval (rows p)))
    ∧ oval (colRepeatFields r)
      = repeatFields (dims (oval (columns p))) (meas (oval (columns p)))
    ∧ oval (allFieldIds r)
      = fieldIds (oval (rows p)) (oval (columns p))
          (oval <$> color p) (oval <$> opacity p) (oval <$> size p)
    ∧ length (oval (h_viewPlaceholders h))
      = viewNum (oval (rowRepeatFields r)) (oval (colRepeatFields r)).
Proof.
  unfold run_passes, mount, passes, pass, render, placeholderEffect, repeatFields_cb,
    repeatFields, alloc_bind, alloc_ret, useMemo, new. simpl.
  destruct (length (meas (oval (rows p))) =? 0)%nat eqn:Er;
    destruct (length (meas (oval (columns p))) =? 0)%nat eqn:Ec; simpl;
    match goal with
    | |- context [nextViews ?vs ?i ?n ?k] =>
        pose proof (nextViews_length vs n i k) as Hlen;
        destruct (nextViews vs i n k) as [vs' k'] eqn:Hnv
    end; simpl in *;
    eexists _, _; (split; [reflexivity|]); simpl; by repeat split.
Qed.

End PlannerFacts.

Section PlannerProperties.
Import Planner Compiler Examples.

(** C4, evaluated on a re-render. The parent keeps the rows array [[region]]
    and replaces the columns array [[sales]] by [[sales; profit]]. The memo of
    [colRepeatFields] lists the row arrays as its dependencies (line 127), so
    it is not recomputed: the column measures are [sales] and [profit], the
    column repeat fields are still [sales] alone, the grid has one column and
    one placeholder. *)
Theorem colRepeatFields_stale_after_column_change :
  ∃ h r, run_passes [props_one_measure; props_two_measures] = (h, Some r)
    ∧ oval (rowMeas r) = []
    ∧ oval (colMeas r) = [sales; profit]
    ∧ oval (colRepeatFields r) = [sales]
    ∧ colSize r = 1
    ∧ length (oval (h_viewPlaceholders h)) = 1.
Proof. eexists _, _. split; [by vm_compute|]. by vm_compute. Qed.

(** The same props on mount give both measures their column. *)
Lemma colRepeatFields_on_mount :
  ∃ h r, run_passes [props_two_measures] = (h, Some r)
    ∧ oval (colRepeatFields r) = [sales; profit]
    ∧ colSize r = 2
    ∧ length (oval (h_viewPlaceholders h)) = 2.
Proof. eexists _, _. split; [by vm_compute|]. by vm_compute. Qed.

(** C5 as stated fails on an axis that ends in a measure: for
    [[region; city; sales]] the facet fields are [[region]], whose innermost
    member is [region], but the field bound to the channel is [city]. *)
Lemma facetField_not_innermost_facet :
  facetFields (dims [region; city; sales]) = [region]
  ∧ facetField null_field [region; city; sales] = city
  ∧ facetField null_field [region; city; sales]
    ≠ default null_field (last (facetFields (dims [region; city; sales]))).
Proof. by vm_compute. Qed.

Lemma dims_app l1 l2 : dims (l1 ++ l2) = dims l1 ++ dims l2.
Proof. apply List.filter_app. Qed.

(** C5, amended. The facet fields of an axis are its dimensions without the
    last one. The field bound to the row / column channel of every compiled
    view is the last dimension among the fields of the axis before its final
    field, or the null field when there is none: the innermost facet field
    when the axis ends in a dimension, the last dimension of the axis when
    it ends in a measure. *)
Theorem facetField_bound
    (NULL_FIELD : IViewField) (SingleView : Type)
    (getSingleView : SingleViewProps → SingleView)
    (p : ReactVegaProps) (r : Rendered) (fields : list IViewField) :
  facetFields (dims fields) = removelast (dims fields)
  ∧ facetField NULL_FIELD fields = default NULL_FIELD (last (dims (removelast fields)))
  ∧ facetField NULL_FIELD fields
    = match last fields with
      | Some f =>
          if is_dimension f
          then default NULL_FIELD (last (facetFields (dims fields)))
          else default NULL_FIELD (last (dims fields))
      | None => NULL_FIELD
      end
  ∧ Forall (λ sp,
      sv_row (spec_view_props (snd sp)) = facetField NULL_FIELD (oval (rows p))
      ∧ sv_column (spec_view_props (snd sp)) = facetField NULL_FIELD (oval (columns p)))
      (compile NULL_FIELD getSingleView p r).
Proof.
  assert (Hbound : facetField NULL_FIELD fields
                   = default NULL_FIELD (last (dims (removelast fields)))).
  { unfold facetField, leftFacetFields. by rewrite last_or_last, slice_all_but_last. }
  split; [apply slice_all_but_last|]. split; [exact Hbound|]. split.
  - rewrite Hbound. unfold facetFields. rewrite slice_all_but_last.
    destruct fields as [|f fs _] using rev_ind; [done|].
    rewrite last_snoc, removelast_last, dims_app. unfold dims at 3 4. simpl.
    destruct (is_dimension f).
    + by rewrite removelast_last.
    + by rewrite app_nil_r.
  - unfold compile. destruct (single_branch r).
    + by repeat constructor.
    + apply Forall_forall. intros sp Hsp.
      apply list_elem_of_bind in Hsp as (i & Hsp & _).
      apply list_elem_of_bind in Hsp as (j & Hsp & _).
      apply list_elem_of_singleton in Hsp. by subst sp.
Qed.

(** C7. The bus is throttled with [leading: false, trailing: true] for a
    duration of [dataSource.length / 64 * rowRepeatCount * colRepeatCount];
    doubling the product of row count and data length, the column count
    fixed, doubles the duration. *)
Theorem throttle_trailing_and_scaling
    (p : ReactVegaProps) (r : Rendered) (len rc cc len' rc' : nat) :
  rc' * len' = 2 * (rc * len) →
  leading (snd (throttledParamStore_args p r)) = false
  ∧ trailing (snd (throttledParamStore_args p r)) = true
  ∧ (fst (throttledParamStore_args p r)
     == inject_Z (Z.of_nat (length (oval (dataSource p)))) / 64
        * inject_Z (Z.of_nat (length (oval (rowRepeatFields r))))
        * inject_Z (Z.of_nat (length (oval (colRepeatFields r)))))%Q
  ∧ (throttle_duration len' rc' cc == 2 * throttle_duration len rc cc)%Q.
Proof.
  intros H. split; [done|]. split; [done|]. split; [reflexivity|].
  unfold throttle_duration.
  assert (Hq : (inject_Z (Z.of_nat len') * inject_Z (Z.of_nat rc')
                == 2 * (inject_Z (Z.of_nat len) * inject_Z (Z.of_nat rc)))%Q).
  { rewrite <- !inject_Z_mult. change 2%Q with (inject_Z 2).
    rewrite <- inject_Z_mult. apply inject_Z_injective. lia. }
  transitivity ((inject_Z (Z.of_nat len') * inject_Z (Z.of_nat rc')) / 64
                * inject_Z (Z.of_nat cc))%Q; [field|].
  rewrite Hq. field.
Qed.

(** Ten rows in a 1 x 3 grid against ten rows in a 2 x 3 grid. *)
Lemma throttle_trailing_and_scaling_witness :
  2 * 10 = 2 * (1 * 10)
  ∧ (throttle_duration 10 2 3 == 2 * throttle_duration 10 1 3)%Q.
Proof.
  split; [reflexivity|].
  apply (throttle_trailing_and_scaling props_one_measure
           (mkRendered rows_region rows_region rows_region rows_region rows_region
              rows_region rows_region rows_region (mkObj (Outer 9) []))
           10 1 3 10 2).
  reflexivity.
Defined.

(** The interval parameter bound to scales is among the parameters exactly
    when [interactiveScale] is set. *)
Lemma grid_param_iff_interactive (ids : list string) (interactive : bool) :
  grid_param ∈ spec_params ids interactive ↔ interactive = true.
Proof.
  unfold spec_params. destruct interactive; simpl.
  - split; [done|]. intros _. rewrite !elem_of_cons. by right; left.
  - split; [|done]. intros H. apply list_elem_of_singleton in H. discriminate.
Qed.

(** C8, evaluated on a chart with [category] on the shape channel: the
    shape field reaches the single-view builder, but [allFieldIds] is built
    from rows, columns, color, opacity and size only (line 128), so the
    fields of the point selection are [region] and [sales]. *)
Theorem shape_field_not_in_selection_fields :
  ∃ h r, run_passes [props_with_shape] = (h, Some r)
    ∧ (λ sp, (sv_shape (spec_view_props (snd sp)), params (snd sp)))
        <$> compile null_field id props_with_shape r
      = [(category, [geom_param ["region"; "sales"]])]
    ∧ fid category ∉ oval (allFieldIds r).
Proof.
  eexists _, _. split; [by vm_compute|]. split; [by vm_compute|].
  vm_compute. intros H. repeat (apply elem_of_cons in H as [H|H]; [discriminate|]).
  by apply not_elem_of_nil in H.
Qed.

End PlannerProperties.

(* ===================================================================== *)
(** * The render orchestrator *)
(* ===================================================================== *)

Section OrchestratorFacts.
Import Orchestrator.

Lemma run_app s tr tr' : run s (tr ++ tr') = run (run s tr) tr'.
Proof. apply foldl_app. Qed.

Lemma run_snoc s tr e : run s (tr ++ [e]) = step (run s tr) e.
Proof. by rewrite run_app. Qed.

(** ** Shape of the state after one step *)

Lemma ready_next_cycles src v s : cycles (ready_next src v s) = cycles s.
Proof. done. Qed.

Lemma ready_next_log src v s : ready_log (ready_next src v s) = ready_log s ++ [(src, v)].
Proof. done. Qed.

(** A step appends at most one emission to the log of [ready$]. *)
Lemma step_log s e :
  ready_log (step s e) = ready_log s
  ∨ ∃ src v, ready_log (step s e) = ready_log s ++ [(src, v)]
             ∧ waiters (step s e) = notify v <$> waiters s.
Proof.
  destruct e as [inp|c idx|c idx|c| | |]; simpl; try by left.
  - unfold embed_resolves. destruct (cycles s !! c) as [cy|]; [|by left].
    destruct (embeds cy !! idx) as [[| |]|]; try by left.
    destruct (branch cy); [right|by left]. by eexists _, _.
  - unfold embed_rejects. destruct (cycles s !! c) as [cy|]; [|by left].
    by destruct (embeds cy !! idx) as [[| |]|]; left.
  - unfold fan_in. destruct (cycles s !! c) as [cy|]; [|by left].
    destruct (_ && _); [right|by left]. by eexists _, _.
  - right. by eexists _, _.
Qed.

(** The promises of a single-view run sit at index 0. *)
Lemma issue_single_key nodes idx st : issue_single nodes !! idx = Some st → idx = 0.
Proof.
  unfold issue_single. destruct (_ && _); [|by rewrite lookup_empty].
  intros H. destruct (decide (idx = 0)) as [|Hne]; [done|].
  by rewrite lookup_singleton_ne in H.
Qed.

(** ** The invariant holds in every reachable state *)

Lemma inv_init : Inv init.
Proof.
  split.
  - intros c v H. by apply elem_of_nil in H.
  - intros c cy H. simpl in H. by rewrite lookup_nil in H.
  - intros c cy idx st H. simpl in H. by rewrite lookup_nil in H.
Qed.

Lemma lookup_set_cycle c cy s c0 cy0 :
  cycles (set_cycle c cy s) !! c0 = Some cy0 →
  (c0 = c ∧ cy0 = cy ∧ c < length (cycles s)) ∨ (c0 ≠ c ∧ cycles s !! c0 = Some cy0).
Proof.
  simpl. intros H. destruct (decide (c0 = c)) as [->|Hne].
  - left. assert (c < length (cycles s)) as Hlt.
    { apply lookup_lt_Some in H. by rewrite length_insert in H. }
    rewrite list_lookup_insert_eq in H by done. by inversion H.
  - right. by rewrite list_lookup_insert_ne in H.
Qed.

Lemma inv_run_effect inp s : Inv s → Inv (run_effect inp s).
Proof.
  intros [Hlog Hready Hsingle]. split; simpl.
  - intros c v H. rewrite length_app. apply Hlog in H. lia.
  - intros c cy Hc Hem. apply lookup_app_Some in Hc as [Hc|[Hlen Hc]]; [by eauto|].
    apply Hlog in Hem. lia.
  - intros c cy idx st Hc Hb Hidx.
    apply lookup_app_Some in Hc as [Hc|[Hlen Hc]]; [by eauto|].
    apply list_lookup_singleton_Some in Hc as [_ <-].
    destruct (_ && _); simpl in *; [|done]. by eapply issue_single_key.
Qed.

Lemma inv_embed_resolves c idx s : Inv s → Inv (embed_resolves c idx s).
Proof.
  intros HI. pose proof HI as [Hlog Hready Hsingle]. unfold embed_resolves.
  destruct (cycles s !! c) as [cy|] eqn:Hc; [|done].
  destruct (embeds cy !! idx) as [[| |]|] eqn:Hidx; try done.
  assert (c < length (cycles s)) as Hlt by (by eapply lookup_lt_Some).
  destruct (branch cy) eqn:Hb.
  - (* single view: the callback emits *)
    split.
    + intros c0 v. rewrite ready_next_log, ready_next_cycles. simpl.
      rewrite length_insert, elem_of_app, list_elem_of_singleton.
      intros [H|H]; [by eauto|]. by inversion H; subst.
    + intros c0 cy0. rewrite ready_next_cycles. unfold ready_emitted.
      rewrite ready_next_log, elem_of_app, list_elem_of_singleton.
      intros H0 Hem. apply lookup_set_cycle in H0 as [(-> & -> & _)|(Hne & H0)].
      * simpl. intros i st Hi. destruct (decide (i = idx)) as [->|Hni].
        -- rewrite lookup_insert_eq in Hi. by inversion Hi.
        -- rewrite lookup_insert_ne in Hi by done.
           pose proof (Hsingle _ _ _ _ Hc Hb Hi). pose proof (Hsingle _ _ _ _ Hc Hb Hidx).
           congruence.
      * destruct Hem as [Hem|Hem]; [by eapply Hready|]. by inversion Hem.
    + intros c0 cy0 i st. rewrite ready_next_cycles. intros H0 Hb0 Hi.
      apply lookup_set_cycle in H0 as [(-> & -> & _)|(Hne & H0)]; [|by eauto].
      simpl in Hi. destruct (decide (i = idx)) as [->|Hni]; [by eauto|].
      rewrite lookup_insert_ne in Hi by done. by eauto.
  - (* repeated views: the handle is recorded, nothing is emitted *)
    split; simpl.
    + intros c0 v H. rewrite length_insert. by eauto.
    + intros c0 cy0 H0 Hem.
      apply (lookup_set_cycle c _ s) in H0 as [(-> & -> & _)|(Hne & H0)]; [|by eauto].
      pose proof (Hready _ _ Hc Hem _ _ Hidx). done.
    + intros c0 cy0 i st H0 Hb0 Hi.
      apply (lookup_set_cycle c _ s) in H0 as [(-> & -> & _)|(Hne & H0)]; [|by eauto].
      simpl in Hb0. congruence.
Qed.

Lemma inv_embed_rejects c idx s : Inv s → Inv (embed_rejects c idx s).
Proof.
  intros HI. pose proof HI as [Hlog Hready Hsingle]. unfold embed_rejects.
  destruct (cycles s !! c) as [cy|] eqn:Hc; [|done].
  destruct (embeds cy !! idx) as [[| |]|] eqn:Hidx; try done.
  split; simpl.
  - intros c0 v H. rewrite length_insert. by eauto.
  - intros c0 cy0 H0 Hem.
    apply (lookup_set_cycle c _ s) in H0 as [(-> & -> & _)|(Hne & H0)]; [|by eauto].
    pose proof (Hready _ _ Hc Hem _ _ Hidx). done.
  - intros c0 cy0 i st H0 Hb0 Hi.
    apply (lookup_set_cycle c _ s) in H0 as [(-> & -> & _)|(Hne & H0)]; [|by eauto].
    simpl in *. destruct (decide (i = idx)) as [->|Hni]; [by eauto|].
    rewrite lookup_insert_ne in Hi by done. by eauto.
Qed.

Lemma inv_fan_in c s : Inv s → Inv (fan_in c s).
Proof.
  intros HI. pose proof HI as [Hlog Hready Hsingle]. unfold fan_in.
  destruct (cycles s !! c) as [cy|] eqn:Hc; [|done].
  destruct (bool_decide (branch cy = RepeatedViews) && negb (fanin_done cy)
            && all_resolved cy) eqn:Hguard; [|done].
  apply andb_prop in Hguard as [_ Hall]. apply bool_decide_eq_true in Hall.
  assert (c < length (cycles s)) as Hlt by (by eapply lookup_lt_Some).
  split.
  - intros c0 v. rewrite ready_next_log, ready_next_cycles. simpl.
    rewrite length_insert, elem_of_app, list_elem_of_singleton.
    intros [H|H]; [by eauto|]. by inversion H; subst.
  - intros c0 cy0. rewrite ready_next_cycles. unfold ready_emitted.
    rewrite ready_next_log, elem_of_app, list_elem_of_singleton.
    intros H0 Hem. apply lookup_set_cycle in H0 as [(-> & -> & _)|(Hne & H0)]; [done|].
    destruct Hem as [Hem|Hem]; [by eapply Hready|]. by inversion Hem.
  - intros c0 cy0 i st. rewrite ready_next_cycles. intros H0 Hb0 Hi.
    apply lookup_set_cycle in H0 as [(-> & -> & _)|(Hne & H0)]; by eauto.
Qed.

Lemma inv_step s e : Inv s → Inv (step s e).
Proof.
  intros HI. destruct e as [inp|c idx|c idx|c| | |]; simpl.
  - by apply inv_run_effect.
  - by apply inv_embed_resolves.
  - by apply inv_embed_rejects.
  - by apply inv_fan_in.
  - destruct HI as [Hlog Hready Hsingle]. split; simpl; [| |done].
    + intros c v. rewrite elem_of_app, list_elem_of_singleton.
      intros [H|H]; [by eauto|]. by inversion H.
    + intros c cy Hc. unfold ready_emitted. simpl.
      rewrite elem_of_app, list_elem_of_singleton.
      intros [H|H]; [by eapply Hready|]. by inversion H.
  - done.
  - by destruct HI.
Qed.

Lemma inv_run tr : Inv (run init tr).
Proof.
  induction tr as [|e tr IH] using rev_ind; [apply inv_init|].
  rewrite run_snoc. by apply inv_step.
Qed.

(** A rejected embed stays rejected. *)
Lemma rejected_step s e c cy idx :
  cycles s !! c = Some cy → embeds cy !! idx = Some Rejected →
  ∃ cy', cycles (step s e) !! c = Some cy' ∧ embeds cy' !! idx = Some Rejected.
Proof.
  intros Hc Hidx.
  assert (c < length (cycles s)) as Hlt by (by eapply lookup_lt_Some).
  destruct e as [inp|c0 i|c0 i|c0| | |]; simpl; try by eauto.
  - exists cy. split; [|done]. by apply lookup_app_l_Some.
  - unfold embed_resolves. destruct (cycles s !! c0) as [cy0|] eqn:Hc0; [|by eauto].
    destruct (embeds cy0 !! i) as [[| |]|] eqn:Hi; try by eauto.
    destruct (decide (c = c0)) as [->|Hne].
    + assert (cy0 = cy) as -> by congruence.
      assert (i ≠ idx) by congruence.
      exists (mkCycle (branch cy) (<[ i := Resolved ]> (embeds cy)) (fanin_done cy)).
      split.
      * destruct (branch cy); simpl; by apply list_lookup_insert_eq.
      * simpl. by rewrite lookup_insert_ne.
    + exists cy. split; [|done].
      destruct (branch cy0); simpl; by rewrite list_lookup_insert_ne.
  - unfold embed_rejects. destruct (cycles s !! c0) as [cy0|] eqn:Hc0; [|by eauto].
    destruct (embeds cy0 !! i) as [[| |]|] eqn:Hi; try by eauto.
    destruct (decide (c = c0)) as [->|Hne].
    + assert (cy0 = cy) as -> by congruence.
      assert (i ≠ idx) by congruence.
      eexists. split; [by apply list_lookup_insert_eq|].
      simpl. by rewrite lookup_insert_ne.
    + exists cy. split; [|done]. simpl. by rewrite list_lookup_insert_ne.
  - unfold fan_in. destruct (cycles s !! c0) as [cy0|] eqn:Hc0; [|by eauto].
    destruct (_ && _); [|by eauto].
    destruct (decide (c = c0)) as [->|Hne].
    + assert (cy0 = cy) as -> by congruence.
      eexists. split; [by apply list_lookup_insert_eq|done].
    + exists cy. split; [|done]. simpl. by rewrite list_lookup_insert_ne.
Qed.

Lemma rejected_run tr : ∀ s c cy idx,
  cycles s !! c = Some cy → embeds cy !! idx = Some Rejected →
  ∃ cy', cycles (run s tr) !! c = Some cy' ∧ embeds cy' !! idx = Some Rejected.
Proof.
  induction tr as [|e tr IH]; intros s c cy idx Hc Hidx; [by eauto|].
  simpl. destruct (rejected_step s e c cy idx Hc Hidx) as (cy' & Hc' & Hidx').
  by eapply IH.
Qed.

(** Once every embed of a repeated-views run has resolved, its fan-in
    callback emits [true]. *)
Lemma fan_in_emits s c cy :
  cycles s !! c = Some cy → branch cy = RepeatedViews → fanin_done cy = false →
  map_Forall (λ _ st, st = Resolved) (embeds cy) →
  ready_emitted c (fan_in c s).
Proof.
  intros Hc Hb Hf Hall. unfold fan_in, all_resolved. rewrite Hc, Hb, Hf.
  rewrite !bool_decide_eq_true_2 by done. simpl.
  unfold ready_emitted. rewrite ready_next_log, elem_of_app, list_elem_of_singleton.
  by right.
Qed.

(** A run that has emitted [true] has resolved every embed it issued. *)
Lemma ready_implies_resolved tr c cy idx st :
  cycles (run init tr) !! c = Some cy → embeds cy !! idx = Some st →
  ready_emitted c (run init tr) → st = Resolved.
Proof.
  intros Hc Hidx Hem. by apply (inv_ready _ (inv_run tr) c cy Hc Hem idx st).
Qed.

(** A run with a rejected embed never emits [true]. *)
Lemma rejected_never_ready tr c cy idx tr' :
  cycles (run init tr) !! c = Some cy → embeds cy !! idx = Some Rejected →
  ¬ ready_emitted c (run (run init tr) tr').
Proof.
  intros Hc Hidx Hem.
  destruct (rejected_run tr' _ _ _ _ Hc Hidx) as (cy' & Hc' & Hidx').
  rewrite <- run_app in Hc', Hem.
  pose proof (ready_implies_resolved _ _ _ _ _ Hc' Hidx' Hem). done.
Qed.

End OrchestratorFacts.

Section OrchestratorProperties.
Import Orchestrator Facade Examples.

(** In that trace nothing is emitted while cell 2 is pending, although the
    fan-in callback is tried; the emission follows the last resolution. *)
Lemma three_cells_ready_only_after_last :
  ready_log (run init (take 4 three_cells_trace)) = []
  ∧ ready_log (run init (take 5 three_cells_trace)) = []
  ∧ ready_log (run init three_cells_trace) = [(Some 0, true)].
Proof. by vm_compute. Qed.

(** With a rejected cell the fan-in never fires. *)
Lemma rejecting_trace_never_ready tr' :
  ¬ ready_emitted 0 (run (run init rejecting_trace) tr').
Proof.
  apply (rejected_never_ready rejecting_trace 0
           (mkCycle RepeatedViews
              (<[ 2 := Resolved ]> (<[ 1 := Rejected ]> (<[ 0 := Resolved ]> ∅))) false) 1);
    by vm_compute.
Qed.

(** C1, evaluated on a single chart. After the embed of the one placeholder
    has resolved, readiness has been emitted for the current run, but the
    [then] callback of the single-view branch (lines 208-221) never stores
    [res.view]: the handle list is empty and both exports return the empty
    list, where the grid has one cell. *)
Theorem single_view_export_empty
    (Canvas : Type) (toSVG : View → string) (toCanvas : View → option nat → Canvas)
    (toDataURL : Canvas → string → option nat → string) :
  let s := run init single_view_trace in
  current_cycle s = Some 1
  ∧ ready_emitted 1 s
  ∧ (embeds <$> cycles s !! 1) ≫= (λ m, m !! 0) = Some Resolved
  ∧ vegaRefs s = []
  ∧ getSVGData toSVG s = []
  ∧ getCanvasData Canvas toCanvas toDataURL s = [].
Proof.
  simpl. split; [by vm_compute|]. split; [|by vm_compute].
  unfold ready_emitted. vm_compute. apply list_elem_of_singleton. reflexivity.
Qed.

(** The plan of the single chart [props_one_measure]: one row field, one
    column field, one placeholder, single-view branch. *)
Lemma single_chart_plan :
  ∃ h r, Planner.run_passes [props_one_measure] = (h, Some r)
    ∧ length (oval (Planner.rowRepeatFields r)) = 1
    ∧ length (oval (Planner.colRepeatFields r)) = 1
    ∧ length (oval (Planner.h_viewPlaceholders h)) = 1
    ∧ Compiler.single_branch r = true.
Proof. eexists _, _. split; [by vm_compute|]. by vm_compute. Qed.

(** As long as the component only runs the single-view branch, no handle
    is ever stored, whatever settles. *)
Lemma single_view_never_stores (tr : list Event) :
  forallb single_view_event tr = true →
  vegaRefs (run init tr) = []
  ∧ Forall (λ cy, branch cy = SingleView) (cycles (run init tr)).
Proof.
  induction tr as [|e tr IH] using rev_ind; [by split; [|constructor]|].
  rewrite forallb_app. simpl. rewrite andb_true_r.
  intros [Htr He]%andb_prop. destruct (IH Htr) as [Hv Hc]. clear IH Htr.
  rewrite run_snoc. set (s := run init tr) in *.
  destruct e as [inp|c idx|c idx|c| | |]; simpl in *; try done.
  - rewrite He. split; [done|]. apply Forall_app. split; [done|]. by constructor.
  - unfold embed_resolves. destruct (cycles s !! c) as [cy|] eqn:Hcy; [|done].
    destruct (embeds cy !! idx) as [[| |]|]; try done.
    assert (Hb : branch cy = SingleView).
    { eapply Forall_forall in Hc; [exact Hc|]. by eapply list_elem_of_lookup_2. }
    rewrite Hb. simpl. split; [done|].
    apply Forall_insert; [done|]. by simpl.
  - unfold embed_rejects. destruct (cycles s !! c) as [cy|] eqn:Hcy; [|done].
    destruct (embeds cy !! idx) as [[| |]|]; try done.
    assert (Hb : branch cy = SingleView).
    { eapply Forall_forall in Hc; [exact Hc|]. by eapply list_elem_of_lookup_2. }
    simpl. split; [done|]. apply Forall_insert; [done|]. by simpl.
  - unfold fan_in. destruct (cycles s !! c) as [cy|] eqn:Hcy; [|done].
    assert (Hb : branch cy = SingleView).
    { eapply Forall_forall in Hc; [exact Hc|]. by eapply list_elem_of_lookup_2. }
    rewrite Hb. by simpl.
Qed.

(** Before any embed has resolved the exports return the empty list. *)
Lemma export_before_first_embed
    (Canvas : Type) (toSVG : View → string) (toCanvas : View → option nat → Canvas)
    (toDataURL : Canvas → string → option nat → string) (inp : EffectInput) :
  getSVGData toSVG (run init [RunEffect inp]) = []
  ∧ getCanvasData Canvas toCanvas toDataURL (run init [RunEffect inp]) = [].
Proof. done. Qed.

(** In the repeated branch the handles are stored in the order in which the
    embeds resolve. *)
Lemma three_cells_export_order (toSVG : View → string) :
  getSVGData toSVG (run init three_cells_trace)
  = [toSVG (mkView 0 1); toSVG (mkView 0 0); toSVG (mkView 0 2)].
Proof. by vm_compute. Qed.

(** C3 as stated fails: after the single chart has become ready (the last
    emission is [true], no [setUnready], no new run), the promise of a call
    of [ready()] is pending, and stays so while nothing more is emitted. *)
Lemma ready_after_ready_stays_pending :
  let s := run init single_view_trace in
  last (ready_log s) = Some (Some 1, true)
  ∧ waiters (step s CallReady) = [None]
  ∧ waiters (run s [CallReady; SetReady; FanIn 1; EmbedResolves 1 0]) = [None].
Proof. by vm_compute. Qed.

Lemma step_waiter s e k w :
  waiters s !! k = Some w →
  (ready_log (step s e) = ready_log s ∧ waiters (step s e) !! k = Some w)
  ∨ (∃ src v, ready_log (step s e) = ready_log s ++ [(src, v)]
              ∧ waiters (step s e) !! k = Some (notify v w)).
Proof.
  intros Hk.
  assert (Hn : ∀ src v s0, waiters s0 = waiters s →
               waiters (ready_next src v s0) !! k = Some (notify v w)).
  { intros src v s0 H0. simpl. by rewrite H0, list_lookup_fmap, Hk. }
  destruct e as [inp|c idx|c idx|c| | |]; simpl; try by left.
  - unfold embed_resolves. destruct (cycles s !! c) as [cy|]; [|by left].
    destruct (embeds cy !! idx) as [[| |]|]; try by left.
    destruct (branch cy); [right|by left]. eexists _, _. split; [done|]. by apply Hn.
  - unfold embed_rejects. destruct (cycles s !! c) as [cy|]; [|by left].
    by destruct (embeds cy !! idx) as [[| |]|]; left.
  - unfold fan_in. destruct (cycles s !! c) as [cy|]; [|by left].
    destruct (_ && _); [right|by left]. eexists _, _. split; [done|]. by apply Hn.
  - right. exists None, false. split; [done|]. by apply (Hn None false s).
  - left. split; [done|]. by apply lookup_app_l_Some.
Qed.

Lemma emits_true_snoc new src v : emits_true (new ++ [(src, v)]) = emits_true new || v.
Proof. unfold emits_true. rewrite existsb_app. simpl. by rewrite orb_false_r. Qed.

Lemma waiter_run tr : ∀ s k,
  waiters s !! k = Some None →
  ∃ new, ready_log (run s tr) = ready_log s ++ new
         ∧ waiters (run s tr) !! k = Some (if emits_true new then Some true else None).
Proof.
  induction tr as [|e tr IH] using rev_ind; intros s k Hk.
  - exists []. by rewrite app_nil_r.
  - rewrite run_snoc. destruct (IH s k Hk) as (new & Hlog & Hw).
    destruct (step_waiter (run s tr) e k _ Hw) as [[Hl Hw']|(src & v & Hl & Hw')].
    + exists new. by rewrite Hl.
    + exists (new ++ [(src, v)]). split; [by rewrite Hl, Hlog, <- app_assoc|].
      rewrite Hw', emits_true_snoc.
      destruct (emits_true new); destruct v; reflexivity.
Qed.

(** C3, amended. The promise returned by [ready()] is pending when the call
    returns, whatever was emitted before, and it is resolved (with [true])
    exactly from the next emission of [true] on the readiness channel that
    follows the call. *)
Theorem ready_resolves_on_next_true (tr tr' : list Event) :
  let s := run init tr in
  let k := length (waiters s) in
  let s' := run (step s CallReady) tr' in
  waiters (step s CallReady) !! k = Some None
  ∧ waiters s' !! k
    = Some (if emits_true (drop (length (ready_log s)) (ready_log s'))
            then Some true else None).
Proof.
  cbv zeta.
  assert (Hk : waiters (step (run init tr) CallReady) !! length (waiters (run init tr))
               = Some None).
  { simpl. by rewrite lookup_app_r, Nat.sub_diag. }
  split; [exact Hk|].
  destruct (waiter_run tr' _ _ Hk) as (new & Hlog & Hw).
  rewrite Hw, Hlog. cbn [step ready_log]. by rewrite drop_app_length.
Qed.

(** C10. Whatever the state and the file name, both downloads resolve to
    the empty list; they trigger one save per stored handle, named with the
    suffix [_i] (counting from 1) when there is more than one handle. *)
Theorem downloads_resolve_to_empty_list
    (Canvas : Type) (toSVG : View → string) (toCanvas : View → option nat → Canvas)
    (toDataURL : Canvas → string → option nat → string)
    (createObjectURL : File → string) (s : State) (filename : string) :
  let svg := downloadSVG toSVG createObjectURL s filename in
  let png := downloadPNG Canvas toCanvas toDataURL s filename in
  let n := length (vegaRefs s) in
  snd svg = [] ∧ snd png = []
  ∧ length (fst svg) = n ∧ length (fst png) = n
  ∧ (∀ i, download <$> (fst svg !! i)
          = (λ _, filename +:+ (if Nat.ltb 1 n then "_" +:+ decimal (N.of_nat (i + 1)) else "")
                  +:+ ".svg") <$> (vegaRefs s !! i))
  ∧ (∀ i, download <$> (fst png !! i)
          = (λ _, filename +:+ (if Nat.ltb 1 n then "_" +:+ decimal (N.of_nat (i + 1)) else "")
                  +:+ ".png") <$> (vegaRefs s !! i)).
Proof.
  simpl. split; [done|]. split; [done|].
  split; [by rewrite length_imap, length_fmap|].
  split; [by rewrite length_imap, !length_fmap|].
  split; intros i.
  - rewrite list_lookup_imap, list_lookup_fmap, length_fmap.
    by destruct (vegaRefs s !! i).
  - rewrite list_lookup_imap, !list_lookup_fmap, !length_fmap.
    by destruct (vegaRefs s !! i).
Qed.

End OrchestratorProperties.

Section IssuedEmbeds.
Import Orchestrator.

Lemma issue_row_lookup (i cols : nat) (nodes : list bool) (n : nat) :
  ∀ (a : nat) (m : gmap nat PromiseState) (idx : nat),
  foldl (λ m j, let idx := i * cols + j in
                if node_at nodes idx then <[ idx := Pending ]> m else m)
    m (seq a n) !! idx
  = if bool_decide (i * cols + a ≤ idx < i * cols + a + n) && node_at nodes idx
    then Some Pending else m !! idx.
Proof.
  induction n as [|n IH]; intros a m idx.
  - simpl. rewrite bool_decide_eq_false_2 by lia. done.
  - simpl. rewrite IH. clear IH.
    destruct (decide (idx = i * cols + a)) as [->|Hne].
    + rewrite (bool_decide_eq_false_2 (_ ≤ _ < i * cols + S a + n)) by lia.
      rewrite (bool_decide_eq_true_2 (_ ≤ _ < i * cols + a + S n)) by lia. simpl.
      destruct (node_at nodes (i * cols + a)); [by rewrite lookup_insert_eq|done].
    + assert ((i * cols + S a ≤ idx < i * cols + S a + n)
              ↔ (i * cols + a ≤ idx < i * cols + a + S n)) as Hiff by lia.
      rewrite (bool_decide_ext _ _ Hiff).
      destruct (bool_decide _ && node_at nodes idx); [done|].
      destruct (node_at nodes (i * cols + a)); [|done].
      by rewrite lookup_insert_ne.
Qed.

Lemma issue_rows_lookup (cols : nat) (nodes : list bool) (n : nat) :
  ∀ (a : nat) (m : gmap nat PromiseState) (idx : nat),
  foldl (λ m i,
           foldl (λ m j, let idx := i * cols + j in
                         if node_at nodes idx then <[ idx := Pending ]> m else m)
             m (seq 0 cols))
    m (seq a n) !! idx
  = if bool_decide (a * cols ≤ idx < (a + n) * cols) && node_at nodes idx
    then Some Pending else m !! idx.
Proof.
  induction n as [|n IH]; intros a m idx.
  - simpl. rewrite bool_decide_eq_false_2 by lia. done.
  - simpl. rewrite IH, issue_row_lookup. clear IH.
    destruct (node_at nodes idx); rewrite ?andb_false_r; [|done].
    rewrite !andb_true_r.
    destruct (bool_decide (S a * cols ≤ idx < (S a + n) * cols)) eqn:H1;
      destruct (bool_decide (a * cols + 0 ≤ idx < a * cols + 0 + cols)) eqn:H2;
      destruct (bool_decide (a * cols ≤ idx < (a + S n) * cols)) eqn:H3;
      try done;
      repeat match goal with
             | H : bool_decide _ = true |- _ => apply bool_decide_eq_true in H
             | H : bool_decide _ = false |- _ => apply bool_decide_eq_false in H
             end; exfalso; nia.
Qed.

(** The repeated branch issues an embed exactly for the cells of the grid
    whose placeholder holds a node. *)
Lemma issue_repeated_lookup (rows cols : nat) (nodes : list bool) (idx : nat) :
  issue_repeated rows cols nodes !! idx
  = if bool_decide (idx < rows * cols) && node_at nodes idx then Some Pending else None.
Proof.
  unfold issue_repeated. rewrite issue_rows_lookup, lookup_empty.
  assert ((0 * cols ≤ idx < (0 + rows) * cols) ↔ idx < rows * cols) as Hiff
    by (simpl; lia).
  by rewrite (bool_decide_ext _ _ Hiff).
Qed.

(** With every placeholder mounted, all [rows * cols] cells get their embed. *)
Lemma issue_repeated_all (rows cols idx : nat) :
  idx < rows * cols →
  issue_repeated rows cols (replicate (rows * cols) true) !! idx = Some Pending.
Proof.
  intros H. rewrite issue_repeated_lookup, bool_decide_eq_true_2 by done.
  unfold node_at. rewrite length_replicate.
  destruct (Nat.ltb_spec idx (rows * cols)); [|lia].
  by rewrite lookup_replicate_2.
Qed.





End IssuedEmbeds.

Section ReadyAfterEmbeds.
Import Orchestrator Examples.




End ReadyAfterEmbeds.

(* ===================================================================== *)
(** * The interaction bus *)
(* ===================================================================== *)

Section BusFacts.
Import Bus Examples.

(** The two known stores are recognised and stripped of their suffix. *)
Lemma paramStores_known :
  paramStores ["source_0"; store_of BRUSH_SIGNAL_NAME; "geom_store"; store_of POINT_SIGNAL_NAME]
  = [BRUSH_SIGNAL_NAME; POINT_SIGNAL_NAME].
Proof. by vm_compute. Qed.

Lemma subscriber_views e s k :
  tap_view <$> taps (subscriber e s k) = tap_view <$> taps s.
Proof.
  unfold subscriber. destruct (taps s !! k) as [t|] eqn:Hk; [|done].
  destruct (ignored e t); [done|]. simpl.
  rewrite list_fmap_insert. simpl. apply list_insert_id.
  by rewrite list_lookup_fmap, Hk.
Qed.

Lemma subscriber_writes_into e s k v :
  writes_into v (subscriber e s k)
  = writes_into v s
    + (if match (tap_view <$> taps s) !! k with
          | Some w => accepts e v w
          | None => false
          end then 1 else 0).
Proof.
  rewrite list_lookup_fmap. unfold subscriber.
  destruct (taps s !! k) as [t|] eqn:Hk; simpl; [|lia].
  unfold accepts, ignored. destruct (_ || _); simpl.
  - rewrite andb_false_r. lia.
  - rewrite andb_true_r. unfold writes_into. simpl.
    rewrite List.filter_app, length_app. simpl.
    destruct (tap_view t =? v); simpl; lia.
Qed.

Lemma deliver_fold e v ks : ∀ s,
  writes_into v (foldl (subscriber e) s ks)
  = writes_into v s
    + length (List.filter
                (λ k, match (tap_view <$> taps s) !! k with
                      | Some w => accepts e v w
                      | None => false
                      end) ks).
Proof.
  induction ks as [|k ks IH]; intros s; simpl; [lia|].
  rewrite IH, subscriber_views, subscriber_writes_into.
  destruct (match (tap_view <$> taps s) !! k with Some w => _ | None => false end);
    simpl; lia.
Qed.

Lemma filter_lookup_seq {A} (P : A → bool) (l : list A) :
  length (List.filter (λ k, match l !! k with Some w => P w | None => false end)
            (seq 0 (length l)))
  = length (List.filter P l).
Proof.
  induction l as [|x l IH] using rev_ind; [done|].
  rewrite length_app, seq_app, !List.filter_app, !length_app. simpl.
  rewrite lookup_app_r, Nat.sub_diag by lia. simpl.
  rewrite <- IH. f_equal; [|by destruct (P x)].
  f_equal. apply List.filter_ext_in. intros k Hk. apply in_seq in Hk.
  by rewrite lookup_app_l by lia.
Qed.

Lemma filter_accepts e v (l : list nat) :
  length (List.filter (accepts e v) l)
  = if Nat.eqb (source e) v || falsy (data e) then 0
    else length (List.filter (λ w, Nat.eqb w v) l).
Proof.
  induction l as [|w l IH]; simpl; [by destruct (_ || _)|].
  unfold accepts at 1. destruct (w =? v) eqn:Hw; simpl.
  - apply Nat.eqb_eq in Hw as ->. destruct (_ || _); simpl; [done|]. by rewrite IH.
  - rewrite IH. by destruct (_ || _).
Qed.

Lemma taps_of_views v (ts : list Tap) :
  taps_of v ts = length (List.filter (λ w, Nat.eqb w v) (tap_view <$> ts)).
Proof.
  unfold taps_of. induction ts as [|t ts IH]; [done|]. simpl.
  destruct (tap_view t =? v); simpl; by rewrite IH.
Qed.

(** Delivering an entry writes once per subscription of every view other
    than its source, provided the payload is not [null]. *)
Lemma deliver_writes_into e s v :
  writes_into v (deliver e s)
  = writes_into v s
    + (if Nat.eqb (source e) v || falsy (data e) then 0 else taps_of v (taps s)).
Proof.
  unfold deliver. rewrite deliver_fold. f_equal.
  rewrite <- (length_fmap tap_view (taps s)).
  by rewrite (filter_lookup_seq (accepts e v)), filter_accepts, taps_of_views.
Qed.

(** A listener that is not suppressed pushes the current snapshot of its
    store, tagged with its own view. *)
Lemma signal_listener_broadcasts s k t :
  taps s !! k = Some t → noBroadcasting t = false →
  tap_param t ∈ [BRUSH_SIGNAL_NAME; POINT_SIGNAL_NAME] →
  combinedParamStore (signal_listener k s)
  = combinedParamStore s
    ++ [mkEntry (tap_param t) (tap_view t)
          (or_null (get_store s (tap_view t) (store_of (tap_param t))))].
Proof.
  intros Hk Hf Hin. unfold signal_listener. rewrite Hk, Hf.
  by rewrite bool_decide_eq_true_2.
Qed.

(** C6 as stated fails twice. An entry whose payload is the empty array
    (empty by the test of line 291) is not ignored by the other view: it is
    written into it. And a view with two selection stores has two
    subscriptions, each of which writes: one delivered entry causes two
    state writes into that view. *)
Lemma empty_payload_written_and_two_writes :
  is_empty (data cleared_brush) = true
  ∧ writes (deliver cleared_brush two_brush_views)
    = [mkWrite 1 "__gw_brush___store" (PTuples [])]
  ∧ writes_into 1 (deliver brush_one two_views_two_stores) = 2.
Proof. by vm_compute. Qed.

(** C6, amended. A subscription (one per selection store of a view) ignores
    a received entry exactly when the source of the entry is its own view or
    the payload is [null]; an empty array is not ignored. Otherwise it sets
    its suppression flag and makes one state write of the snapshot into its
    own renderer, and the next call of its signal listener is swallowed: the
    flag is cleared and nothing is pushed on the bus. Hence a delivered
    entry with a payload causes, in every view other than its source, one
    state write per subscription of that view, and none in its source. *)
Theorem bus_relay (s : State) (e : ParamStoreEntry) (k : nat) (t : Tap) (v : nat) :
  taps s !! k = Some t →
  (subscriber e s k = s ↔ (source e = tap_view t ∨ data e = PNull))
  ∧ (¬ (source e = tap_view t ∨ data e = PNull) →
     let s' := subscriber e s k in
     writes s' = writes s ++ [mkWrite (tap_view t) (store_of (signal e)) (data e)]
     ∧ taps s' !! k = Some (mkTap (tap_view t) (tap_param t) true)
     ∧ combinedParamStore s' = combinedParamStore s
     ∧ combinedParamStore (signal_listener k s') = combinedParamStore s
     ∧ taps (signal_listener k s') !! k = Some (mkTap (tap_view t) (tap_param t) false))
  ∧ writes_into v (deliver e s)
    = writes_into v s
      + (if Nat.eqb (source e) v || falsy (data e) then 0 else taps_of v (taps s))
  ∧ writes_into (source e) (deliver e s) = writes_into (source e) s.
Proof.
  intros Hk.
  assert (Hlt : k < length (taps s)) by (by eapply lookup_lt_Some).
  assert (Hign : ignored e t = true ↔ (source e = tap_view t ∨ data e = PNull)).
  { unfold ignored. rewrite orb_true_iff, Nat.eqb_eq.
    by destruct (data e); simpl; intuition. }
  split; [|split; [|split]].
  - unfold subscriber. rewrite Hk. destruct (ignored e t) eqn:Hi.
    + split; [by intros _; apply Hign|done].
    + split.
      * intros Heq. apply (f_equal (λ s, length (writes s))) in Heq. simpl in Heq.
        rewrite length_app in Heq. simpl in Heq. lia.
      * intros H. apply Hign in H. congruence.
  - intros Hn. assert (Hi : ignored e t = false).
    { destruct (ignored e t) eqn:Hi; [|done]. by destruct Hn; apply Hign. }
    cbv zeta. unfold subscriber. rewrite Hk, Hi. simpl.
    split; [done|]. split; [by apply list_lookup_insert_eq|]. split; [done|].
    unfold signal_listener. simpl. rewrite list_lookup_insert_eq by done. simpl.
    split; [done|]. rewrite list_lookup_insert_eq; [done|]. by rewrite length_insert.
  - apply deliver_writes_into.
  - rewrite deliver_writes_into, Nat.eqb_refl. simpl. lia.
Qed.

(** Two views with one store each, a brush over one tuple in view 0: the
    subscription of view 1 writes once and swallows its echo. *)
Lemma bus_relay_witness :
  taps two_brush_views !! 1 = Some (mkTap 1 BRUSH_SIGNAL_NAME false)
  ∧ writes_into 1 (deliver brush_one two_brush_views) = 1
  ∧ writes_into 0 (deliver brush_one two_brush_views) = 0.
Proof.
  split; [reflexivity|].
  destruct (bus_relay two_brush_views brush_one 1 (mkTap 1 BRUSH_SIGNAL_NAME false) 1
              eq_refl) as (_ & _ & H1 & _).
  destruct (bus_relay two_brush_views brush_one 1 (mkTap 1 BRUSH_SIGNAL_NAME false) 0
              eq_refl) as (_ & _ & H0 & _).
  split; [exact H1 | exact H0].
Defined.

End BusFacts.

(* ===================================================================== *)
(** * The data pipeline of [Renderer] *)
(* ===================================================================== *)

Section RendererFacts.
Import Renderer.

Context {Error IFilterField IVisualConfig DraggableFieldState : Type}.
Variable defaultAggregated : IVisualConfig → bool.
Variable applyFilter : list IRow → list IFilterField → Settled Error (list IRow).
Variable transformDataService : list IRow → list IViewField → Settled Error (list IRow).
Variable applyViewQuery :
  list IRow → list IViewField → ViewQuery → Settled Error (list IRow).

(** The services do not touch the state of the component. *)
Lemma pipeline_state (st : Stores IFilterField IVisualConfig DraggableFieldState)
    (s s0 : State Error IVisualConfig DraggableFieldState) :
  pipeline defaultAggregated applyFilter transformDataService applyViewQuery st s
  = (s, snd (pipeline defaultAggregated applyFilter transformDataService applyViewQuery
               st s0)).
Proof.
  unfold pipeline, then_, service, view_query.
  destruct (applyFilter _ _) as [data|err]; [|done].
  destruct (transformDataService _ _) as [d|err]; [|done].
  by destruct (applyViewQuery _ _ _).
Qed.

End RendererFacts.

Section RendererProperties.
Import Renderer Examples.

(** C9. When the filter / transform / view-query pipeline rejects, the
    effect ends with the error on the console and the waiting flag cleared;
    [viewData], [encodings] and [viewConfig] keep their previous values, and
    the promise chain is fulfilled: no rejection leaves the effect. *)
Theorem pipeline_failure_keeps_state
    (Error IFilterField IVisualConfig DraggableFieldState : Type)
    (defaultAggregated : IVisualConfig → bool)
    (applyFilter : list IRow → list IFilterField → Settled Error (list IRow))
    (transformDataService : list IRow → list IViewField → Settled Error (list IRow))
    (applyViewQuery : list IRow → list IViewField → ViewQuery → Settled Error (list IRow))
    (st : Stores IFilterField IVisualConfig DraggableFieldState)
    (s : State Error IVisualConfig DraggableFieldState) (err : Error) :
  snd (pipeline defaultAggregated applyFilter transformDataService applyViewQuery st s)
  = Rejected err →
  let r := dataEffect defaultAggregated applyFilter transformDataService applyViewQuery st s in
  snd r = Fulfilled tt
  ∧ viewData (fst r) = viewData s
  ∧ encodings (fst r) = encodings s
  ∧ viewConfig (fst r) = viewConfig s
  ∧ waiting (fst r) = false
  ∧ console (fst r) = console s ++ [err].
Proof.
  intros H. cbv zeta. unfold dataEffect, catch_, then_.
  erewrite pipeline_state, H. by simpl.
Qed.

(** The filter service rejects with ["network"] while the component shows
    one row: the row stays, the error is on the console. *)
Lemma pipeline_failure_keeps_state_witness :
  snd (pipeline id failing_filter pass_on query_pass_on some_stores showing_one_row)
  = Rejected "network"
  ∧ viewData (fst (dataEffect id failing_filter pass_on query_pass_on
                     some_stores showing_one_row))
    = [[("region", "east")]]
  ∧ console (fst (dataEffect id failing_filter pass_on query_pass_on
                    some_stores showing_one_row))
    = ["network"].
Proof.
  split; [reflexivity|].
  destruct (pipeline_failure_keeps_state string unit bool unit id
              failing_filter pass_on query_pass_on some_stores showing_one_row
              "network" eq_refl)
    as (_ & Hd & _ & _ & _ & Hc).
  split; [exact Hd | exact Hc].
Defined.

(** When the pipeline fulfils, the batched update replaces all four. *)
Lemma pipeline_success_updates
    (Error IFilterField IVisualConfig DraggableFieldState : Type)
    (defaultAggregated : IVisualConfig → bool)
    (applyFilter : list IRow → list IFilterField → Settled Error (list IRow))
    (transformDataService : list IRow → list IViewField → Settled Error (list IRow))
    (applyViewQuery : list IRow → list IViewField → ViewQuery → Settled Error (list IRow))
    (st : Stores IFilterField IVisualConfig DraggableFieldState)
    (s : State Error IVisualConfig DraggableFieldState) (data : list IRow) :
  snd (pipeline defaultAggregated applyFilter transformDataService applyViewQuery st s)
  = Fulfilled data →
  let r := dataEffect defaultAggregated applyFilter transformDataService applyViewQuery st s in
  snd r = Fulfilled tt
  ∧ viewData (fst r) = data
  ∧ encodings (fst r) = draggableFieldState st
  ∧ viewConfig (fst r) = visualConfig st
  ∧ waiting (fst r) = false
  ∧ console (fst r) = console s.
Proof.
  intros H. cbv zeta. unfold dataEffect, catch_, then_.
  erewrite pipeline_state, H. by simpl.
Qed.

End RendererProperties.

(* ===================================================================== *)
(** * Further properties of the planner and the spec compiler *)
(* ===================================================================== *)

Section PlannerMore.
Import Planner Compiler.

(** ** Placeholders across a resize *)



(** ** A re-render with the same props *)

Lemma useMemo_deps {A} (cell : option (MemoCell A)) (cb : Alloc A) deps n c n' :
  useMemo cell cb deps n = (c, n') → cell_deps c = deps.
Proof.
  unfold useMemo, alloc_bind, alloc_ret. destruct cell as [c0|].
  - case_bool_decide as Hd.
    + intros [= <- <-]. done.
    + destruct (cb n). by intros [= <- <-].
  - destruct (cb n). by intros [= <- <-].
Qed.

Lemma useMemo_reuse {A} (c : MemoCell A) (cb : Alloc A) deps n :
  cell_deps c = deps → useMemo (Some c) cb deps n = (c, n).
Proof. intros H. unfold useMemo. by rewrite bool_decide_eq_true_2. Qed.

Lemma render_stable p h n h1 r1 n1 ph cf pd m :
  render p h n = ((h1, r1), n1) →
  let h' := mkHooks (h_rowDims h1) (h_colDims h1) (h_rowMeas h1) (h_colMeas h1)
              (h_rowFacetFields h1) (h_colFacetFields h1) (h_rowRepeatFields h1)
              (h_colRepeatFields h1) (h_allFieldIds h1) ph cf pd in
  render p h' m = ((h', r1), m).
Proof.
  unfold render. unfold alloc_bind at 1 2 3 4 5 6 7 8 9.
  destruct (useMemo (h_rowDims h) _ _ n) as [c1 k1] eqn:E1.
  destruct (useMemo (h_colDims h) _ _ k1) as [c2 k2] eqn:E2.
  destruct (useMemo (h_rowMeas h) _ _ k2) as [c3 k3] eqn:E3.
  destruct (useMemo (h_colMeas h) _ _ k3) as [c4 k4] eqn:E4.
  destruct (useMemo (h_rowFacetFields h) _ _ k4) as [c5 k5] eqn:E5.
  destruct (useMemo (h_colFacetFields h) _ _ k5) as [c6 k6] eqn:E6.
  destruct (useMemo (h_rowRepeatFields h) _ _ k6) as [c7 k7] eqn:E7.
  destruct (useMemo (h_colRepeatFields h) _ _ k7) as [c8 k8] eqn:E8.
  destruct (useMemo (h_allFieldIds h) _ _ k8) as [c9 k9] eqn:E9.
  unfold alloc_ret. intros [= <- <- <-].
  cbn [h_rowDims h_colDims h_rowMeas h_colMeas h_rowFacetFields h_colFacetFields
       h_rowRepeatFields h_colRepeatFields h_allFieldIds].
  unfold alloc_bind.
  rewrite (useMemo_reuse c1) by (by eapply useMemo_deps).
  rewrite (useMemo_reuse c2) by (by eapply useMemo_deps).
  rewrite (useMemo_reuse c3) by (by eapply useMemo_deps).
  rewrite (useMemo_reuse c4) by (by eapply useMemo_deps).
  rewrite (useMemo_reuse c5) by (by eapply useMemo_deps).
  rewrite (useMemo_reuse c6) by (by eapply useMemo_deps).
  rewrite (useMemo_reuse c7) by (by eapply useMemo_deps).
  rewrite (useMemo_reuse c8) by (by eapply useMemo_deps).
  rewrite (useMemo_reuse c9) by (by eapply useMemo_deps).
  done.
Qed.

Lemma placeholderEffect_cells r h n h2 k :
  placeholderEffect r h n = (h2, k) →
  h2 = mkHooks (h_rowDims h) (h_colDims h) (h_rowMeas h) (h_colMeas h)
         (h_rowFacetFields h) (h_colFacetFields h) (h_rowRepeatFields h)
         (h_colRepeatFields h) (h_allFieldIds h)
         (h_viewPlaceholders h2) (h_crossFilterTriggerIdx h2) (h_placeholderDeps h2).
Proof.
  unfold placeholderEffect. destruct (effect_runs _ _).
  - unfold alloc_bind, alloc_ret, new.
    destruct (nextViews _ _ _ n) as [vs k0]. by intros [= <- <-].
  - unfold alloc_ret. intros [= <- <-]. by destruct h.
Qed.

Lemma placeholderEffect_again r h n h1 n1 :
  placeholderEffect r h n = (h1, n1) → placeholderEffect r h1 n1 = (h1, n1).
Proof.
  unfold placeholderEffect, effect_runs.
  destruct (h_placeholderDeps h) as [d|] eqn:Hd.
  - case_bool_decide as Heq; simpl.
    + unfold alloc_ret. intros [= <- <-]. rewrite Hd.
      by rewrite bool_decide_eq_true_2.
    + unfold alloc_bind, alloc_ret, new.
      destruct (nextViews _ _ _ n) as [vs k]. intros [= <- <-]. simpl.
      by rewrite bool_decide_eq_true_2.
  - unfold alloc_bind, alloc_ret, new.
    destruct (nextViews _ _ _ n) as [vs k]. intros [= <- <-]. simpl.
    by rewrite bool_decide_eq_true_2.
Qed.

(** X2. Rendering again with the same props changes nothing: every memo
    returns its cached array, the placeholder effect does not run, no
    object is allocated, and the rendered values are the same objects. *)
Theorem pass_again (p : ReactVegaProps) (h h1 : HookState) (r1 : Rendered) (n n1 : nat) :
  pass p h n = ((h1, r1), n1) → pass p h1 n1 = ((h1, r1), n1).
Proof.
  unfold pass. unfold alloc_bind at 1 2.
  destruct (render p h n) as [[h0 r0] k0] eqn:Hr. simpl.
  destruct (placeholderEffect r0 h0 k0) as [h2 k2] eqn:He.
  unfold alloc_ret. intros [= <- <- <-].
  pose proof (placeholderEffect_cells _ _ _ _ _ He) as Hh2.
  pose proof (render_stable _ _ _ _ _ _ (h_viewPlaceholders h2)
                (h_crossFilterTriggerIdx h2) (h_placeholderDeps h2) k2 Hr) as Hr2.
  cbv zeta in Hr2. rewrite <- Hh2 in Hr2.
  unfold alloc_bind. rewrite Hr2. simpl.
  by rewrite (placeholderEffect_again _ _ _ _ _ He).
Qed.

(** The second pass of a two-measure chart after its mount. *)
Lemma pass_again_witness :
  pass Examples.props_two_measures (fst (mount 0)) (snd (mount 0))
    = MoreExamples.mount_pass Examples.props_two_measures
  ∧ pass Examples.props_two_measures
      (fst (fst (MoreExamples.mount_pass Examples.props_two_measures)))
      (snd (MoreExamples.mount_pass Examples.props_two_measures))
    = MoreExamples.mount_pass Examples.props_two_measures.
Proof.
  split; [reflexivity|].
  exact (pass_again Examples.props_two_measures (fst (mount 0))
           (fst (fst (MoreExamples.mount_pass Examples.props_two_measures)))
           (snd (fst (MoreExamples.mount_pass Examples.props_two_measures)))
           (snd (mount 0))
           (snd (MoreExamples.mount_pass Examples.props_two_measures))
           ltac:(vm_compute; reflexivity)).
Defined.

(** ** The grid of compiled specs *)

Lemma bind_singleton_fmap {A B} (h : A → B) (l : list A) :
  (x ← l; [h x]) = h <$> l.
Proof. induction l as [|a l IH]; [done|]. csimpl. by rewrite IH. Qed.

Lemma bind_grid {A} (f : nat → nat → A) (R C : nat) :
  (i ← seq 0 R; j ← seq 0 C; [f i j])
  = (λ idx, f (idx / C) (idx mod C)) <$> seq 0 (R * C).
Proof.
  induction R as [|R IH]; [done|].
  rewrite seq_S, bind_app, IH. csimpl. rewrite app_nil_r.
  replace (C + R * C) with (R * C + C) by lia.
  rewrite seq_app, fmap_app. f_equal. simpl.
  replace (seq (R * C) C) with (Nat.add (R * C) <$> seq 0 C)
    by (rewrite fmap_add_seq; f_equal; lia).
  rewrite <- list_fmap_compose, bind_singleton_fmap.
  apply list_fmap_ext. intros k j Hj. simpl.
  apply lookup_seq in Hj as [-> Hlt]. simpl.
  assert (C ≠ 0) by lia.
  f_equal.
  - rewrite Nat.add_comm, Nat.div_add by done. rewrite Nat.div_small by done. lia.
  - rewrite Nat.add_comm, Nat.Div0.mod_add. by rewrite Nat.mod_small.
Qed.

(** The specs of the repeated branch, cell by cell. *)
Lemma compile_repeated
    (NULL_FIELD : IViewField) (SingleView : Type)
    (getSingleView : SingleViewProps → SingleView)
    (p : ReactVegaProps) (r : Rendered) :
  single_branch r = false →
  let R := length (oval (rowRepeatFields r)) in
  let C := length (oval (colRepeatFields r)) in
  compile NULL_FIELD getSingleView p r
  = (λ idx,
       (idx,
        composite getSingleView p r
          (channels NULL_FIELD p
             (default NULL_FIELD (oval (colRepeatFields r) !! (idx mod C)))
             (default NULL_FIELD (oval (rowRepeatFields r) !! (idx / C)))
             (Some (negb (Nat.eqb idx (C - 1)))))))
    <$> seq 0 (R * C).
Proof.
  intros Hb. cbv zeta. unfold compile. rewrite Hb.
  rewrite (bind_grid (λ i j, (i * _ + j, _))).
  apply list_fmap_ext. intros k idx Hidx. simpl.
  apply lookup_seq in Hidx as [-> Hlt]. simpl in *.
  set (C := length (oval (colRepeatFields r))) in *.
  assert (C ≠ 0) by (intros ->; lia).
  pose proof (Nat.div_mod_eq k C) as Hdm.
  pose proof (Nat.mod_upper_bound k C ltac:(done)) as Hm.
  f_equal; [lia|]. f_equal. f_equal. f_equal. f_equal.
  destruct (Nat.eqb_spec (k / C) 0) as [H0|H0];
    destruct (Nat.eqb_spec (k mod C) (C - 1)) as [H1|H1];
    destruct (Nat.eqb_spec k (C - 1)) as [H2|H2]; simpl; try done; exfalso.
  - apply H2. rewrite Hdm, H0, H1. lia.
  - apply H1. rewrite H2. apply Nat.mod_small. lia.
  - apply H0. rewrite H2. apply Nat.div_small. lia.
  - apply H0. rewrite H2. apply Nat.div_small. lia.
Qed.


(** X3. In the repeated branch the effect builds one spec per cell of the
    [rows x cols] grid, in row-major order with the indices [0 .. rows*cols-1]:
    cell [idx] plots column field [idx mod cols] against row field
    [idx / cols]. No spec is built when either repeat array is empty. *)
Theorem compile_grid
    (NULL_FIELD : IViewField) (SingleView : Type)
    (getSingleView : SingleViewProps → SingleView)
    (p : ReactVegaProps) (r : Rendered) :
  single_branch r = false →
  let R := length (oval (rowRepeatFields r)) in
  let C := length (oval (colRepeatFields r)) in
  (λ sp, (fst sp, sv_x (spec_view_props (snd sp)), sv_y (spec_view_props (snd sp))))
    <$> compile NULL_FIELD getSingleView p r
  = (λ idx, (idx,
             default NULL_FIELD (oval (colRepeatFields r) !! (idx mod C)),
             default NULL_FIELD (oval (rowRepeatFields r) !! (idx / C))))
    <$> seq 0 (R * C).
Proof.
  intros Hb. cbv zeta. rewrite (compile_repeated _ _ _ _ _ Hb).
  by rewrite <- list_fmap_compose.
Qed.

(** Region by sales and profit: two cells, sales then profit. *)
Lemma compile_grid_witness :
  single_branch (MoreExamples.mount_rendered Examples.props_two_measures) = false
  ∧ (λ sp, (fst sp, sv_x (spec_view_props (snd sp)), sv_y (spec_view_props (snd sp))))
      <$> compile Examples.null_field id Examples.props_two_measures
            (MoreExamples.mount_rendered Examples.props_two_measures)
    = [(0, Examples.sales, Examples.region); (1, Examples.profit, Examples.region)].
Proof.
  split; [reflexivity|].
  rewrite (compile_grid Examples.null_field _ id Examples.props_two_measures
             (MoreExamples.mount_rendered Examples.props_two_measures) eq_refl).
  reflexivity.
Defined.

Lemma filter_fmap {A B} (P : B → bool) (g : A → B) (l : list A) :
  List.filter P (g <$> l) = g <$> List.filter (λ a, P (g a)) l.
Proof.
  induction l as [|a l IH]; [done|]. csimpl. rewrite IH. by destruct (P (g a)).
Qed.

Lemma filter_eqb_seq (c n : nat) :
  List.filter (λ idx, Nat.eqb idx c) (seq 0 n) = if Nat.ltb c n then [c] else [].
Proof.
  induction n as [|n IH]; [done|].
  rewrite seq_S, List.filter_app, IH. simpl.
  destruct (Nat.ltb_spec c n); destruct (Nat.eqb_spec n c);
    destruct (Nat.ltb_spec c (S n)); simpl; try done; try lia.
  by subst.
Qed.

(** X4. In a grid with at least one cell exactly one compiled spec shows
    its legend: the last cell of the first row, index [cols - 1]. Every
    other cell is built with [hideLegend: true]. *)
Theorem one_legend
    (NULL_FIELD : IViewField) (SingleView : Type)
    (getSingleView : SingleViewProps → SingleView)
    (p : ReactVegaProps) (r : Rendered) :
  single_branch r = false →
  let R := length (oval (rowRepeatFields r)) in
  let C := length (oval (colRepeatFields r)) in
  fst <$> List.filter
            (λ sp, bool_decide (sv_hideLegend (spec_view_props (snd sp)) = Some false))
            (compile NULL_FIELD getSingleView p r)
  = (if Nat.ltb 0 R && Nat.ltb 0 C then [C - 1] else [])
  ∧ Forall (λ sp, fst sp ≠ C - 1 →
                  sv_hideLegend (spec_view_props (snd sp)) = Some true)
      (compile NULL_FIELD getSingleView p r).
Proof.
  intros Hb. cbv zeta. rewrite (compile_repeated _ _ _ _ _ Hb). cbv zeta.
  set (R := length (oval (rowRepeatFields r))).
  set (C := length (oval (colRepeatFields r))). split.
  - rewrite filter_fmap, <- list_fmap_compose. simpl.
    rewrite (List.filter_ext _ (λ idx, Nat.eqb idx (C - 1))).
    + rewrite filter_eqb_seq.
      rewrite (list_fmap_ext _ id) by done. rewrite list_fmap_id.
      destruct (Nat.ltb_spec (C - 1) (R * C)); destruct (Nat.ltb_spec 0 R);
        destruct (Nat.ltb_spec 0 C); simpl; try done; exfalso; nia.
    + intros idx. by destruct (idx =? C - 1).
  - apply Forall_fmap, Forall_forall. intros idx _. simpl. intros Hne.
    by destruct (Nat.eqb_spec idx (C - 1)).
Qed.

(** Region by sales and profit: the legend is on cell 1. *)
Lemma one_legend_witness :
  single_branch (MoreExamples.mount_rendered Examples.props_two_measures) = false
  ∧ fst <$> List.filter
              (λ sp, bool_decide (sv_hideLegend (spec_view_props (snd sp)) = Some false))
              (compile Examples.null_field id Examples.props_two_measures
                 (MoreExamples.mount_rendered Examples.props_two_measures))
    = [1].
Proof.
  split; [reflexivity|].
  exact (proj1 (one_legend Examples.null_field _ id Examples.props_two_measures
                  (MoreExamples.mount_rendered Examples.props_two_measures) eq_refl)).
Defined.

(** ** The fields of the point selection *)

Lemma omap_id_Some {A} (l : list A) : omap id (Some <$> l) = l.
Proof. induction l as [|a l IH]; [done|]. csimpl. by rewrite IH. Qed.

(** X5. The fields of the point selection are the ids of the row fields,
    then of the column fields, then of the color, opacity and size fields
    that are set, in this order and with repetitions: a field on two of
    these channels is listed twice, an unset channel contributes nothing. *)
Theorem fieldIds_order (rs cs : list IViewField) (color opacity size : option IViewField) :
  fieldIds rs cs color opacity size
  = (fid <$> rs) ++ (fid <$> cs) ++ (fid <$> omap id [color; opacity; size])
  ∧ ∀ f, (f ∈ rs ∨ f ∈ cs ∨ Some f = color ∨ Some f = opacity ∨ Some f = size) →
         fid f ∈ fieldIds rs cs color opacity size.
Proof.
  assert (Heq : fieldIds rs cs color opacity size
                = (fid <$> rs) ++ (fid <$> cs) ++ (fid <$> omap id [color; opacity; size])).
  { unfold fieldIds. rewrite !omap_app, !omap_id_Some.
    change (List.map fid) with (fmap (M:=list) fid). by rewrite !fmap_app. }
  split; [exact Heq|]. intros f Hf. rewrite Heq, !elem_of_app.
  destruct Hf as [H|[H|H]].
  - left. by apply list_elem_of_fmap_2.
  - right; left. by apply list_elem_of_fmap_2.
  - right; right. apply list_elem_of_fmap_2.
    destruct H as [<-|[<-|<-]];
      repeat match goal with o : option IViewField |- _ => destruct o end;
      csimpl; rewrite ?elem_of_cons; by eauto 6.
Qed.

(** ** Sizes of the repeated views *)

Lemma floor_div_bounds (total : Q) (n : nat) :
  0 < n →
  (inject_Z (Z.of_nat n * Qfloor (total / inject_Z (Z.of_nat n))) <= total)%Q
  ∧ (total < inject_Z (Z.of_nat n * (Qfloor (total / inject_Z (Z.of_nat n)) + 1)))%Q.
Proof.
  intros Hn. set (c := inject_Z (Z.of_nat n)).
  assert (Hc : (0 < c)%Q).
  { unfold c. change 0%Q with (inject_Z 0). rewrite <- Zlt_Qlt. lia. }
  assert (Hne : ¬ (c == 0)%Q) by (intros H; rewrite H in Hc; by apply Qlt_irrefl in Hc).
  assert (Hx : (c * (total / c) == total)%Q) by (by apply Qmult_div_r).
  rewrite !inject_Z_mult. fold c. split.
  - rewrite <- Hx at 2. apply Qmult_le_l; [done|]. apply Qfloor_le.
  - rewrite <- Hx at 1. apply Qmult_lt_l; [done|]. apply Qlt_floor.
Qed.

(** X6. With a fixed layout and a grid of at least one row and one column,
    every repeated view gets a finite width and height and [autosize: fit];
    the views of a row, each with its 5 pixel gutter, fit into the requested
    width and fall short of it by less than one pixel per view, and so for
    the heights of a column. *)
Theorem repeated_sizing_fits (width height : Q) (R C : nat) :
  0 < R → 0 < C →
  ∃ w h, Layout.repeated_sizing "fixed" width height R C
         = Some (Layout.mkSizing (Some w) (Some h) "fit")
    ∧ (inject_Z (Z.of_nat C * (w + 5)) <= width)%Q
    ∧ (width < inject_Z (Z.of_nat C * (w + 5 + 1)))%Q
    ∧ (inject_Z (Z.of_nat R * (h + 5)) <= height)%Q
    ∧ (height < inject_Z (Z.of_nat R * (h + 5 + 1)))%Q.
Proof.
  intros HR HC. unfold Layout.repeated_sizing, Layout.cell_size.
  rewrite String.eqb_refl.
  destruct (Nat.eqb_spec C 0) as [|_]; [lia|].
  destruct (Nat.eqb_spec R 0) as [|_]; [lia|].
  exists (Qfloor (width / inject_Z (Z.of_nat C)) - 5)%Z,
         (Qfloor (height / inject_Z (Z.of_nat R)) - 5)%Z.
  split; [reflexivity|].
  replace (Qfloor (width / inject_Z (Z.of_nat C)) - 5 + 5)%Z
    with (Qfloor (width / inject_Z (Z.of_nat C))) by lia.
  replace (Qfloor (height / inject_Z (Z.of_nat R)) - 5 + 5)%Z
    with (Qfloor (height / inject_Z (Z.of_nat R))) by lia.
  destruct (floor_div_bounds width C HC) as [H1 H2].
  destruct (floor_div_bounds height R HR) as [H3 H4]. by repeat split.
Qed.

(** 800 x 600 pixels for 2 rows of 3 views: each view is 261 x 295. *)
Lemma repeated_sizing_fits_witness :
  0 < 2 ∧ 0 < 3
  ∧ Layout.repeated_sizing "fixed" (800 # 1) (600 # 1) 2 3
    = Some (Layout.mkSizing (Some 261%Z) (Some 295%Z) "fit").
Proof.
  split; [lia|]. split; [lia|].
  destruct (repeated_sizing_fits (800 # 1) (600 # 1) 2 3 ltac:(lia) ltac:(lia))
    as (w & h & Heq & _).
  reflexivity.
Defined.

End PlannerMore.

(* ===================================================================== *)
(** * Further properties of the orchestrator *)
(* ===================================================================== *)

Section OrchestratorInvariants.
Import Orchestrator OrchestratorMore.

Lemma issue_single_pending nodes idx st : issue_single nodes !! idx = Some st → st = Pending.
Proof.
  unfold issue_single. destruct (_ && _); [|by rewrite lookup_empty].
  intros H. apply lookup_singleton_Some in H as [_ <-]. done.
Qed.

Lemma issue_repeated_pending rows cols nodes idx st :
  issue_repeated rows cols nodes !! idx = Some st → st = Pending.
Proof. rewrite issue_repeated_lookup. destruct (_ && _); by intros [= <-]. Qed.

Lemma ready_count_snoc c log em :
  ready_count c (log ++ [em])
  = ready_count c log + (if bool_decide (em = (Some c, true)) then 1 else 0).
Proof.
  unfold ready_count. rewrite List.filter_app, length_app. f_equal.
  cbn [List.filter].
  destruct (decide (em = (Some c, true)));
    [rewrite !bool_decide_eq_true_2 by done | rewrite !bool_decide_eq_false_2 by done];
    done.
Qed.

Lemma ready_count_0 c log : (Some c, true) ∉ log → ready_count c log = 0.
Proof.
  unfold ready_count. induction log as [|em log IH]; [done|].
  intros [Hne Hnot]%not_elem_of_cons. cbn [List.filter].
  rewrite bool_decide_eq_false_2 by done. by apply IH.
Qed.

Lemma hinv_init : HandleInv init.
Proof.
  split; simpl.
  - constructor.
  - intros v H. by apply elem_of_nil in H.
  - done.
  - intros c cy H. by rewrite lookup_nil in H.
  - intros c. unfold ready_count. simpl. lia.
  - intros src v H. by apply elem_of_nil in H.
Qed.

Lemma current_cycle_Some s c : current_cycle s = Some c ↔ length (cycles s) = S c.
Proof.
  unfold current_cycle. destruct (length (cycles s)); split; intros H;
    try done; by inversion H.
Qed.

Lemma hinv_run_effect inp s : Inv s → HandleInv s → HandleInv (run_effect inp s).
Proof.
  intros [Hlog Hready Hsingle] [Hnd Hres Hcur Hfan Honce Hval]. split; simpl.
  - constructor.
  - intros v H. by apply elem_of_nil in H.
  - intros c cy idx Hc Hcy Hb Hidx. exfalso.
    apply current_cycle_Some in Hc. simpl in Hc. rewrite length_app in Hc. simpl in Hc.
    assert (c = length (cycles s)) as -> by lia.
    rewrite lookup_app_r, Nat.sub_diag in Hcy by lia. simpl in Hcy.
    injection Hcy as <-.
    destruct (_ && _); simpl in *.
    + by apply issue_single_pending in Hidx.
    + by apply issue_repeated_pending in Hidx.
  - intros c cy Hc Hb Hem.
    apply lookup_app_Some in Hc as [Hc|[Hlen Hc]]; [by eauto|].
    apply Hlog in Hem. lia.
  - done.
  - done.
Qed.

Lemma hinv_embed_resolves c idx s :
  Inv s → HandleInv s → HandleInv (embed_resolves c idx s).
Proof.
  intros HI HH. pose proof HI as [Hlog Hready Hsingle].
  pose proof HH as [Hnd Hres Hcur Hfan Honce Hval]. unfold embed_resolves.
  destruct (cycles s !! c) as [cy|] eqn:Hc; [|done].
  destruct (embeds cy !! idx) as [[| |]|] eqn:Hidx; try done.
  assert (c < length (cycles s)) as Hlt by (by eapply lookup_lt_Some).
  assert (Hnotem : ¬ ready_emitted c s).
  { intros Hem. by pose proof (Hready _ _ Hc Hem _ _ Hidx). }
  destruct (branch cy) eqn:Hb.
  - (* single view *)
    split.
    + done.
    + intros v Hv. destruct (Hres v Hv) as (cy0 & Hc0 & Hb0 & Hi0).
      exists cy0. split; [|done]. rewrite ready_next_cycles. simpl.
      rewrite list_lookup_insert_ne; [done|].
      intros Heq. rewrite <- Heq in Hc0. congruence.
    + intros c0 cy0 i Hcur0 Hc0 Hb0 Hi0.
      rewrite ready_next_cycles in Hc0.
      apply lookup_set_cycle in Hc0 as [(-> & -> & _)|(Hne & Hc0)]; [done|].
      apply (Hcur c0 cy0 i); try done.
      apply current_cycle_Some. apply current_cycle_Some in Hcur0.
      simpl in Hcur0. by rewrite length_insert in Hcur0.
    + intros c0 cy0. rewrite ready_next_cycles. intros Hc0 Hb0 Hem.
      apply lookup_set_cycle in Hc0 as [(-> & -> & _)|(Hne & Hc0)]; [done|].
      apply (Hfan c0 cy0); try done. unfold ready_emitted in *.
      rewrite ready_next_log, elem_of_app, list_elem_of_singleton in Hem.
      destruct Hem as [Hem|Hem]; [done|]. congruence.
    + intros c0. rewrite ready_next_log, ready_count_snoc.
      change (ready_log (set_cycle _ _ s)) with (ready_log s).
      case_bool_decide as Heq; [|specialize (Honce c0); lia].
      injection Heq as ->. rewrite ready_count_0 by done. lia.
    + intros src v. rewrite ready_next_log, elem_of_app, list_elem_of_singleton.
      intros [H|[= -> ->]]; [by eauto|done].
  - (* repeated views *)
    split; simpl.
    + apply NoDup_app. split; [done|]. split; [|apply NoDup_singleton].
      intros v Hv Hv'. apply list_elem_of_singleton in Hv' as ->.
      destruct (Hres _ Hv) as (cy0 & Hc0 & _ & Hi0). simpl in *. congruence.
    + intros v [Hv|Hv%list_elem_of_singleton]%elem_of_app.
      * destruct (Hres v Hv) as (cy0 & Hc0 & Hb0 & Hi0).
        destruct (decide (view_cycle v = c)) as [Heq|Hne].
        -- rewrite Heq in *. assert (cy0 = cy) as -> by congruence.
           eexists. split; [by apply list_lookup_insert_eq|]. simpl. split; [done|].
           rewrite lookup_insert_ne; [done|]. congruence.
        -- exists cy0. by rewrite list_lookup_insert_ne.
      * subst v. simpl. eexists. split; [by apply list_lookup_insert_eq|]. simpl.
        split; [done|]. by rewrite lookup_insert_eq.
    + intros c0 cy0 i Hcur0 Hc0 Hb0 Hi0.
      apply current_cycle_Some in Hcur0. simpl in Hcur0. rewrite length_insert in Hcur0.
      apply (lookup_set_cycle c _ s) in Hc0 as [(-> & -> & _)|(Hne & Hc0)].
      * simpl in Hi0. destruct (decide (i = idx)) as [->|Hni].
        -- apply elem_of_app. right. by apply list_elem_of_singleton.
        -- rewrite lookup_insert_ne in Hi0 by done.
           apply elem_of_app. left. apply (Hcur c cy i); try done.
           by apply current_cycle_Some.
      * apply elem_of_app. left. apply (Hcur c0 cy0 i); try done.
        by apply current_cycle_Some.
    + intros c0 cy0 Hc0 Hb0 Hem.
      apply (lookup_set_cycle c _ s) in Hc0 as [(-> & -> & _)|(Hne & Hc0)]; [done|].
      by eauto.
    + done.
    + done.
Qed.

Lemma hinv_embed_rejects c idx s :
  Inv s → HandleInv s → HandleInv (embed_rejects c idx s).
Proof.
  intros HI HH. pose proof HI as [Hlog Hready Hsingle].
  pose proof HH as [Hnd Hres Hcur Hfan Honce Hval]. unfold embed_rejects.
  destruct (cycles s !! c) as [cy|] eqn:Hc; [|done].
  destruct (embeds cy !! idx) as [[| |]|] eqn:Hidx; try done.
  assert (c < length (cycles s)) as Hlt by (by eapply lookup_lt_Some).
  assert (Hnotem : ¬ ready_emitted c s).
  { intros Hem. by pose proof (Hready _ _ Hc Hem _ _ Hidx). }
  split; simpl.
  - done.
  - intros v Hv. destruct (Hres v Hv) as (cy0 & Hc0 & Hb0 & Hi0).
    destruct (decide (view_cycle v = c)) as [Heq|Hne].
    + rewrite Heq in *. assert (cy0 = cy) as -> by congruence.
      eexists. split; [by apply list_lookup_insert_eq|]. simpl. split; [done|].
      rewrite lookup_insert_ne; [done|]. congruence.
    + exists cy0. by rewrite list_lookup_insert_ne.
  - intros c0 cy0 i Hcur0 Hc0 Hb0 Hi0.
    apply current_cycle_Some in Hcur0. simpl in Hcur0. rewrite length_insert in Hcur0.
    apply (lookup_set_cycle c _ s) in Hc0 as [(-> & -> & _)|(Hne & Hc0)].
    + simpl in Hi0. destruct (decide (i = idx)) as [->|Hni].
      * by rewrite lookup_insert_eq in Hi0.
      * rewrite lookup_insert_ne in Hi0 by done.
        apply (Hcur c cy i); try done. by apply current_cycle_Some.
    + apply (Hcur c0 cy0 i); try done. by apply current_cycle_Some.
  - intros c0 cy0 Hc0 Hb0 Hem.
    apply (lookup_set_cycle c _ s) in Hc0 as [(-> & -> & _)|(Hne & Hc0)]; [done|].
    by eauto.
  - done.
  - done.
Qed.

Lemma hinv_fan_in c s : Inv s → HandleInv s → HandleInv (fan_in c s).
Proof.
  intros HI HH. pose proof HI as [Hlog Hready Hsingle].
  pose proof HH as [Hnd Hres Hcur Hfan Honce Hval]. unfold fan_in.
  destruct (cycles s !! c) as [cy|] eqn:Hc; [|done].
  destruct (bool_decide (branch cy = RepeatedViews) && negb (fanin_done cy)
            && all_resolved cy) eqn:Hguard; [|done].
  apply andb_prop in Hguard as [[Hb Hnd']%andb_prop Hall].
  apply bool_decide_eq_true in Hb. apply negb_true_iff in Hnd'.
  assert (c < length (cycles s)) as Hlt by (by eapply lookup_lt_Some).
  assert (Hnotem : ¬ ready_emitted c s).
  { intros Hem. pose proof (Hfan _ _ Hc Hb Hem). congruence. }
  split.
  - done.
  - intros v Hv. destruct (Hres v Hv) as (cy0 & Hc0 & Hb0 & Hi0).
    rewrite ready_next_cycles.
    destruct (decide (view_cycle v = c)) as [Heq|Hne].
    + rewrite Heq in *. assert (cy0 = cy) as -> by congruence.
      eexists. split; [by apply list_lookup_insert_eq|]. done.
    + exists cy0. simpl. by rewrite list_lookup_insert_ne.
  - intros c0 cy0 i Hcur0 Hc0 Hb0 Hi0. rewrite ready_next_cycles in Hc0.
    apply current_cycle_Some in Hcur0. simpl in Hcur0. rewrite length_insert in Hcur0.
    apply lookup_set_cycle in Hc0 as [(-> & -> & _)|(Hne & Hc0)].
    + apply (Hcur c cy i); try done. by apply current_cycle_Some.
    + apply (Hcur c0 cy0 i); try done. by apply current_cycle_Some.
  - intros c0 cy0. rewrite ready_next_cycles. intros Hc0 Hb0 Hem.
    apply lookup_set_cycle in Hc0 as [(-> & -> & _)|(Hne & Hc0)]; [done|].
    apply (Hfan c0 cy0); try done. unfold ready_emitted in *.
    rewrite ready_next_log, elem_of_app, list_elem_of_singleton in Hem.
    destruct Hem as [Hem|Hem]; [done|]. congruence.
  - intros c0. rewrite ready_next_log, ready_count_snoc.
    change (ready_log (set_cycle _ _ s)) with (ready_log s).
    case_bool_decide as Heq; [|specialize (Honce c0); lia].
    injection Heq as ->. rewrite ready_count_0 by done. lia.
  - intros src v. rewrite ready_next_log, elem_of_app, list_elem_of_singleton.
    intros [H|[= -> ->]]; [by eauto|done].
Qed.

Lemma hinv_step s e : Inv s → HandleInv s → HandleInv (step s e).
Proof.
  intros HI HH. destruct e as [inp|c idx|c idx|c| | |]; simpl.
  - by apply hinv_run_effect.
  - by apply hinv_embed_resolves.
  - by apply hinv_embed_rejects.
  - by apply hinv_fan_in.
  - destruct HH as [Hnd Hres Hcur Hfan Honce Hval]. split; simpl; try done.
    + intros c cy Hc Hb Hem. apply (Hfan c cy); try done. unfold ready_emitted in *.
      simpl in Hem. rewrite elem_of_app, list_elem_of_singleton in Hem.
      by destruct Hem as [Hem|Hem].
    + intros c. rewrite ready_count_snoc. rewrite bool_decide_eq_false_2 by done.
      specialize (Honce c). lia.
    + intros src v. rewrite elem_of_app, list_elem_of_singleton.
      intros [H|[= -> ->]]; [by eauto|done].
  - done.
  - by destruct HH.
Qed.

Lemma hinv_run tr : HandleInv (run init tr).
Proof.
  induction tr as [|e tr IH] using rev_ind; [apply hinv_init|].
  rewrite run_snoc. apply hinv_step; [apply inv_run|done].
Qed.

(** X7. Whatever happens, the handle list behind the exports holds no
    handle twice, and every handle in it is the view of an embed of a
    repeated-views run that has resolved: a rejected or pending embed, or a
    single-view embed, never contributes to an export. *)
Theorem handles_distinct_and_resolved (tr : list Event) :
  NoDup (vegaRefs (run init tr))
  ∧ ∀ v, v ∈ vegaRefs (run init tr) →
      ∃ cy, cycles (run init tr) !! view_cycle v = Some cy
            ∧ branch cy = RepeatedViews
            ∧ embeds cy !! view_cell v = Some Resolved.
Proof.
  split; [apply (hinv_nodup _ (hinv_run tr))|apply (hinv_resolved _ (hinv_run tr))].
Qed.

(** X8. Once the current run, in the repeated branch, has emitted
    readiness, the handle of every embed it issued is in the handle list, so
    [getSVGData] contains the markup of each of its cells. *)
Theorem ready_run_exports_every_cell
    (tr : list Event) (c : nat) (cy : Cycle) (idx : nat) (st : PromiseState)
    (toSVG : View → string) :
  current_cycle (run init tr) = Some c →
  cycles (run init tr) !! c = Some cy →
  branch cy = RepeatedViews →
  ready_emitted c (run init tr) →
  embeds cy !! idx = Some st →
  mkView c idx ∈ vegaRefs (run init tr)
  ∧ toSVG (mkView c idx) ∈ Facade.getSVGData toSVG (run init tr).
Proof.
  intros Hcur Hc Hb Hem Hidx.
  assert (st = Resolved) as -> by (by eapply ready_implies_resolved).
  assert (Hin : mkView c idx ∈ vegaRefs (run init tr))
    by (by eapply (hinv_current _ (hinv_run tr))).
  split; [done|]. unfold Facade.getSVGData. by apply list_elem_of_fmap_2.
Qed.

(** Three cells, all resolved and fanned in: cell 2 is exported. *)
Lemma ready_run_exports_every_cell_witness :
  current_cycle (run init Examples.three_cells_trace) = Some 0
  ∧ mkView 0 2 ∈ vegaRefs (run init Examples.three_cells_trace).
Proof.
  split; [reflexivity|].
  refine (proj1 (ready_run_exports_every_cell Examples.three_cells_trace 0
           (mkCycle RepeatedViews
              (<[ 2 := Resolved ]> (<[ 0 := Resolved ]> (<[ 1 := Resolved ]> ∅))) true)
           2 Resolved (λ _, "") eq_refl _ eq_refl _ _)).
  - vm_compute. reflexivity.
  - unfold ready_emitted. vm_compute. apply list_elem_of_singleton. reflexivity.
  - vm_compute. reflexivity.
Defined.

Lemma waiters_true_step s e :
  Forall (λ w, w = None ∨ w = Some true) (waiters s) →
  Forall (λ w, w = None ∨ w = Some true) (waiters (step s e)).
Proof.
  intros H.
  assert (Hn : ∀ v, Forall (λ w, w = None ∨ w = Some true) (notify v <$> waiters s)).
  { intros v. apply Forall_fmap. eapply Forall_impl; [exact H|].
    intros w [-> | ->]; simpl; destruct v; by eauto. }
  destruct e as [inp|c idx|c idx|c| | |]; simpl.
  - done.
  - unfold embed_resolves. destruct (cycles s !! c) as [cy|]; [|done].
    destruct (embeds cy !! idx) as [[| |]|]; try done.
    destruct (branch cy); [apply Hn|done].
  - unfold embed_rejects. destruct (cycles s !! c) as [cy|]; [|done].
    by destruct (embeds cy !! idx) as [[| |]|].
  - unfold fan_in. destruct (cycles s !! c) as [cy|]; [|done].
    destruct (_ && _); [apply Hn|done].
  - apply Hn.
  - done.
  - apply Forall_app. split; [done|]. constructor; [by left|constructor].
Qed.

Lemma waiters_true tr : Forall (λ w, w = None ∨ w = Some true) (waiters (run init tr)).
Proof.
  induction tr as [|e tr IH] using rev_ind; [constructor|].
  rewrite run_snoc. by apply waiters_true_step.
Qed.

Lemma resolved_stays tr : ∀ s k v,
  waiters s !! k = Some (Some v) → waiters (run s tr) !! k = Some (Some v).
Proof.
  induction tr as [|e tr IH]; intros s k v Hk; [done|].
  simpl. apply IH.
  by destruct (step_waiter s e k _ Hk) as [[_ Hw]|(src & v' & _ & Hw)].
Qed.

(** X9. A promise returned by [ready()] never resolves with [false], and
    once resolved it keeps its value whatever is emitted afterwards:
    [setUnready] does not reset it. *)
Theorem ready_promise_true_forever (tr tr' : list Event) (k : nat) (v : bool) :
  waiters (run init tr) !! k = Some (Some v) →
  v = true ∧ waiters (run (run init tr) tr') !! k = Some (Some true).
Proof.
  intros Hk.
  assert (v = true) as ->.
  { pose proof (waiters_true tr) as Hall.
    eapply Forall_lookup_1 in Hall; [|exact Hk].
    destruct Hall as [H|H]; by inversion H. }
  split; [done|]. by apply resolved_stays.
Qed.

(** A call made before the single chart is embedded resolves with the
    embed and survives a later [setUnready]. *)
Lemma ready_promise_true_forever_witness :
  waiters (run init MoreExamples.waiting_trace) !! 0 = Some (Some true)
  ∧ waiters (run (run init MoreExamples.waiting_trace) [SetUnready]) !! 0
    = Some (Some true).
Proof.
  split; [reflexivity|].
  exact (proj2 (ready_promise_true_forever MoreExamples.waiting_trace [SetUnready]
                  0 true eq_refl)).
Defined.

(** X10. Every run of the embed effect emits [true] on the readiness
    channel at most once; the runs never emit [false], and [setUnready]
    never emits [true]. *)
Theorem ready_emitted_at_most_once (tr : list Event) (c : nat) :
  ready_count c (ready_log (run init tr)) ≤ 1
  ∧ ∀ src v, (src, v) ∈ ready_log (run init tr) → (v = true ↔ src ≠ None).
Proof.
  split; [apply (hinv_once _ (hinv_run tr))|].
  intros src v Hin. rewrite (hinv_values _ (hinv_run tr) src v Hin).
  destruct src; by rewrite ?bool_decide_eq_true, ?bool_decide_eq_false.
Qed.

End OrchestratorInvariants.

(* ===================================================================== *)
(** * Further properties of the downloads *)
(* ===================================================================== *)

Section FacadeMore.
Import Orchestrator Facade.

Lemma string_length_app (a b : string) :
  String.length (a +:+ b) = String.length a + String.length b.
Proof. induction a as [|c a IH]; [done|]. simpl. by rewrite IH. Qed.

Lemma string_app_inj_r (a b c : string) : a +:+ c = b +:+ c → a = b.
Proof.
  revert b. induction a as [|x a IH]; intros [|y b] H; [done| | |].
  - apply (f_equal String.length) in H. rewrite !string_length_app in H. simpl in H. lia.
  - apply (f_equal String.length) in H. rewrite !string_length_app in H. simpl in H. lia.
  - simpl in H. injection H as -> H. f_equal. by apply IH.
Qed.

Lemma decimal_inj (n m : N) : decimal n = decimal m → n = m.
Proof.
  unfold decimal. intros H.
  apply (f_equal NilEmpty.uint_of_string) in H. rewrite !NilEmpty.usu in H.
  injection H as H. apply (f_equal N.of_uint) in H.
  by rewrite !DecimalN.Unsigned.of_to in H.
Qed.

(** With more than one file the index makes the names differ. *)
Lemma save_name_inj (filename ext : string) (count i j : nat) :
  1 < count → save_name filename count i ext = save_name filename count j ext → i = j.
Proof.
  intros Hc. unfold save_name.
  destruct (Nat.ltb_spec 1 count) as [_|]; [|lia].
  intros H. apply (inj (String.app filename)) in H.
  apply string_app_inj_r in H. apply (inj (String.app "_")) in H.
  apply decimal_inj in H. lia.
Qed.

Lemma imap_names_NoDup {A} (g : nat → string) (l : list A) :
  (∀ i j, i < length l → j < length l → g i = g j → i = j) →
  NoDup (imap (λ i _, g i) l).
Proof.
  intros Hinj. apply NoDup_alt. intros i j x Hi Hj.
  rewrite list_lookup_imap in Hi, Hj.
  destruct (l !! i) eqn:Ei; [|done]. destruct (l !! j) eqn:Ej; [|done].
  simpl in *. apply lookup_lt_Some in Ei, Ej.
  apply Hinj; [done|done|congruence].
Qed.

(** X11. The files saved by one call of [downloadSVG] or of [downloadPNG]
    have pairwise different names: the index suffix is added whenever
    there is more than one handle. *)
Theorem download_names_distinct
    (Canvas : Type) (toSVG : View → string) (toCanvas : View → option nat → Canvas)
    (toDataURL : Canvas → string → option nat → string)
    (createObjectURL : File → string) (s : State) (filename : string) :
  NoDup (download <$> fst (downloadSVG toSVG createObjectURL s filename))
  ∧ NoDup (download <$> fst (downloadPNG Canvas toCanvas toDataURL s filename)).
Proof.
  assert (Hnames : ∀ (n : nat) (ext : string) (i j : nat),
            i < n → j < n → save_name filename n i ext = save_name filename n j ext → i = j).
  { intros n ext i j Hi Hj H. destruct (decide (1 < n)) as [Hn|Hn].
    - by eapply save_name_inj.
    - lia. }
  unfold downloadSVG, downloadPNG. simpl. split.
  - rewrite fmap_imap. simpl.
    apply (imap_names_NoDup (λ i, save_name filename (length (toSVG <$> vegaRefs s)) i ".svg")).
    intros i j Hi Hj. by apply Hnames.
  - rewrite fmap_imap. simpl.
    apply (imap_names_NoDup
             (λ i, save_name filename
                     (length ((λ canvas, toDataURL canvas "image/png" (Some 1))
                                <$> ((λ view, toCanvas view (Some 2)) <$> vegaRefs s)))
                     i ".png")).
    intros i j Hi Hj. by apply Hnames.
Qed.

(** X12. The default file name is ["gw chart "] followed by the decimal
    digits of [Date.now() % 1000000]: the string is already longer than the
    6 characters [padStart] would pad to, so nothing is ever prepended. Two
    calls get the same default name exactly when their clock readings agree
    modulo 1000000 milliseconds. *)
Theorem default_filename_unpadded (now now' : N) :
  default_filename now = "gw chart " +:+ decimal (now mod 1000000)%N
  ∧ (default_filename now = default_filename now'
     ↔ (now mod 1000000 = now' mod 1000000)%N).
Proof.
  assert (Heq : ∀ n, default_filename n = "gw chart " +:+ decimal (n mod 1000000)%N)
    by reflexivity.
  split; [apply Heq|]. rewrite !Heq. split.
  - intros H. apply (inj (String.app "gw chart ")) in H. by apply decimal_inj.
  - by intros ->.
Qed.

Lemma strip_prefix_Some (pre d r : string) : strip_prefix pre d = Some r → d = pre +:+ r.
Proof.
  revert d. induction pre as [|a pre IH]; intros d; simpl.
  - by intros [= ->].
  - destruct d as [|b d]; [done|].
    destruct (Ascii.eqb_spec a b) as [->|Hne]; [|done].
    intros Hd. by rewrite (IH d Hd).
Qed.

(** X13. The link of a PNG download replaces the prefix [data:image/] and
    the one character after it (unless that is [;]) by
    [data:application/octet-stream]: of the media type [image/png] the
    letters [ng] remain. A string that is not that prefix followed by at
    least one character is left as it is, and the replacement is
    idempotent. *)
Theorem octet_stream_replaces_one_character (c : ascii) (rest d : string) :
  octet_stream ("data:image/" +:+ String c rest)
  = (if Ascii.eqb c ";"%char then "data:image/" +:+ String c rest
     else "data:application/octet-stream" +:+ rest)
  ∧ octet_stream ("data:image/png" +:+ rest) = "data:application/octet-streamng" +:+ rest
  ∧ ((∀ c' rest', d ≠ "data:image/" +:+ String c' rest') → octet_stream d = d)
  ∧ octet_stream (octet_stream d) = octet_stream d.
Proof.
  split; [|split; [done|split]].
  - unfold octet_stream. simpl. by destruct (Ascii.eqb c ";"%char).
  - intros Hd. unfold octet_stream.
    destruct (strip_prefix "data:image/" d) as [[|x r]|] eqn:Hs; [done| |done].
    apply strip_prefix_Some in Hs. by destruct (Hd x r).
  - assert (Hd : octet_stream d = d
                 ∨ ∃ r, octet_stream d = "data:application/octet-stream" +:+ r).
    { unfold octet_stream.
      destruct (strip_prefix "data:image/" d) as [[|x r]|]; [by left| |by left].
      destruct (Ascii.eqb x ";"%char); [by left|right; by exists r]. }
    destruct Hd as [Hd|[r Hd]]; rewrite Hd; [done|reflexivity].
Qed.

(** An object URL and the bare prefix are not touched. *)
Lemma octet_stream_replaces_one_character_witness :
  octet_stream "blob:chart" = "blob:chart"
  ∧ octet_stream "data:image/" = "data:image/".
Proof.
  split.
  - apply (proj1 (proj2 (proj2
      (octet_stream_replaces_one_character "p"%char "" "blob:chart")))).
    intros c' rest' H. discriminate H.
  - apply (proj1 (proj2 (proj2
      (octet_stream_replaces_one_character "p"%char "" "data:image/")))).
    intros c' rest' H. discriminate H.
Defined.

End FacadeMore.


(* ===================================================================== *)
(** * Further properties of the interaction bus *)
(* ===================================================================== *)

Section BusMore.
Import Bus.

(** X14. Whatever data sets the compiled spec of a view has, the selection
    stores wired to the bus are among the brush and the point signal: every
    subscription that [attach] adds is for one of the two, belongs to the
    attached view and starts unsuppressed, and the earlier subscriptions are
    kept. *)
Theorem attach_known_signals (dataNames : list string) (sourceId : nat) (s : State) :
  Forall (λ p, p = BRUSH_SIGNAL_NAME ∨ p = POINT_SIGNAL_NAME) (paramStores dataNames)
  ∧ take (length (taps s)) (taps (attach sourceId dataNames s)) = taps s
  ∧ Forall (λ t, tap_param t ∈ [BRUSH_SIGNAL_NAME; POINT_SIGNAL_NAME]
                 ∧ tap_view t = sourceId ∧ noBroadcasting t = false)
      (drop (length (taps s)) (taps (attach sourceId dataNames s))).
Proof.
  assert (Hp : Forall (λ p, p = BRUSH_SIGNAL_NAME ∨ p = POINT_SIGNAL_NAME)
                 (paramStores dataNames)).
  { unfold paramStores. apply Forall_fmap, Forall_forall. intros name Hin.
    apply list_elem_of_In, List.filter_In in Hin as [_ Hin].
    apply bool_decide_eq_true in Hin.
    apply elem_of_cons in Hin as [->|Hin]; [by left|].
    apply list_elem_of_singleton in Hin as ->. by right. }
  split; [exact Hp|]. simpl. split; [by rewrite take_app_length|].
  rewrite drop_app_length.
  apply Forall_fmap. eapply Forall_impl; [exact Hp|]. simpl.
  intros p [-> | ->]; rewrite !elem_of_cons; by eauto.
Qed.

(** ** What a delivery leaves alone *)

Lemma subscriber_frame e s k :
  combinedParamStore (subscriber e s k) = combinedParamStore s
  ∧ crossFilterTriggerIdx (subscriber e s k) = crossFilterTriggerIdx s
  ∧ tap_param <$> taps (subscriber e s k) = tap_param <$> taps s.
Proof.
  unfold subscriber. destruct (taps s !! k) as [t|] eqn:Hk; [|done].
  destruct (ignored e t); [done|]. simpl. split; [done|]. split; [done|].
  rewrite list_fmap_insert. simpl. apply list_insert_id.
  by rewrite list_lookup_fmap, Hk.
Qed.

Lemma deliver_frame_fold e ks : ∀ s,
  combinedParamStore (foldl (subscriber e) s ks) = combinedParamStore s
  ∧ crossFilterTriggerIdx (foldl (subscriber e) s ks) = crossFilterTriggerIdx s
  ∧ tap_param <$> taps (foldl (subscriber e) s ks) = tap_param <$> taps s
  ∧ tap_view <$> taps (foldl (subscriber e) s ks) = tap_view <$> taps s.
Proof.
  induction ks as [|k ks IH]; intros s; [done|]. simpl.
  destruct (IH (subscriber e s k)) as (H1 & H2 & H3 & H4).
  destruct (subscriber_frame e s k) as (F1 & F2 & F3).
  rewrite H1, H2, H3, H4, F1, F2, F3. by rewrite subscriber_views.
Qed.

Lemma signal_listener_frame k s :
  writes (signal_listener k s) = writes s
  ∧ view_data (signal_listener k s) = view_data s.
Proof.
  unfold signal_listener. destruct (taps s !! k) as [t|]; [|done].
  destruct (noBroadcasting t); [done|]. by case_bool_decide.
Qed.

(** X15. Delivering an entry never puts anything on the bus and never
    touches the hovered-view index; it keeps the views and signals of the
    subscriptions. A signal listener, in turn, never writes into a renderer.
    So the relay can only go on through the renderer firing a signal after
    a state write. *)
Theorem deliver_never_broadcasts (e : ParamStoreEntry) (s : State) (k : nat) :
  combinedParamStore (deliver e s) = combinedParamStore s
  ∧ crossFilterTriggerIdx (deliver e s) = crossFilterTriggerIdx s
  ∧ tap_view <$> taps (deliver e s) = tap_view <$> taps s
  ∧ tap_param <$> taps (deliver e s) = tap_param <$> taps s
  ∧ writes (signal_listener k s) = writes s
  ∧ view_data (signal_listener k s) = view_data s.
Proof.
  destruct (deliver_frame_fold e (seq 0 (length (taps s))) s) as (H1 & H2 & H3 & H4).
  destruct (signal_listener_frame k s) as [H5 H6]. done.
Qed.

(** ** What a delivery writes *)

Lemma get_store_set_store v0 key0 ts vd v key :
  set_store v0 key0 (PTuples ts) vd !! v ≫= (λ d, d !! key)
  = if bool_decide (v = v0 ∧ key = key0) then Some ts else vd !! v ≫= (λ d, d !! key).
Proof.
  unfold set_store. destruct (decide (v = v0)) as [->|Hv].
  - rewrite lookup_insert_eq. simpl. destruct (decide (key = key0)) as [->|Hk].
    + rewrite lookup_insert_eq. by rewrite bool_decide_eq_true_2.
    + rewrite lookup_insert_ne by done. rewrite bool_decide_eq_false_2 by tauto.
      by destruct (vd !! v0).
  - rewrite lookup_insert_ne by done. by rewrite bool_decide_eq_false_2 by tauto.
Qed.

Lemma subscriber_get_store e s k ts v key :
  data e = PTuples ts →
  get_store (subscriber e s k) v key
  = if match (tap_view <$> taps s) !! k with
       | Some w => accepts e v w
       | None => false
       end && bool_decide (key = store_of (signal e))
    then Some ts else get_store s v key.
Proof.
  intros Hd. rewrite list_lookup_fmap. unfold subscriber, get_store.
  destruct (taps s !! k) as [t|] eqn:Hk; simpl; [|done].
  unfold accepts, ignored. rewrite Hd. simpl. rewrite orb_false_r.
  destruct (Nat.eqb_spec (source e) (tap_view t)) as [Hs|Hs]; simpl.
  - by rewrite andb_false_r.
  - rewrite andb_true_r.
    pose proof (get_store_set_store (tap_view t) (store_of (signal e)) ts
                  (view_data s) v key) as Hset.
    unfold set_store in Hset. rewrite Hset. clear Hset.
    destruct (Nat.eqb_spec (tap_view t) v) as [Hv|Hv]; simpl.
    + subst v. case_bool_decide as H1; case_bool_decide as H2; try done; tauto.
    + rewrite bool_decide_eq_false_2; [done|]. intros [? _]. congruence.
Qed.

Lemma deliver_get_store_fold e ts v key ks : ∀ s,
  data e = PTuples ts →
  get_store (foldl (subscriber e) s ks) v key
  = if existsb (λ k, match (tap_view <$> taps s) !! k with
                     | Some w => accepts e v w
                     | None => false
                     end) ks
       && bool_decide (key = store_of (signal e))
    then Some ts else get_store s v key.
Proof.
  induction ks as [|k ks IH]; intros s Hd; [done|]. simpl.
  rewrite IH, subscriber_views, (subscriber_get_store _ _ _ ts) by done.
  destruct (match (tap_view <$> taps s) !! k with Some w => _ | None => false end);
    simpl; [|done].
  destruct (existsb _ ks); simpl; by destruct (bool_decide _).
Qed.

(** X16. When an entry with a payload reaches the subscriptions, every
    other view that has a subscription then holds the payload in the store
    of the entry's signal: reading the store back gives the delivered
    tuples. The stores of the source view, and the other stores of every
    view, are as before. *)
Theorem deliver_propagates
    (e : ParamStoreEntry) (s : State) (ts : list string) (k : nat) (t : Tap)
    (key : string) :
  data e = PTuples ts →
  taps s !! k = Some t →
  tap_view t ≠ source e →
  get_store (deliver e s) (tap_view t) (store_of (signal e)) = Some ts
  ∧ get_store (deliver e s) (source e) key = get_store s (source e) key
  ∧ (key ≠ store_of (signal e) →
     get_store (deliver e s) (tap_view t) key = get_store s (tap_view t) key).
Proof.
  intros Hd Hk Hne. unfold deliver.
  rewrite !(deliver_get_store_fold e ts) by done. split; [|split].
  - rewrite bool_decide_eq_true_2 by done. rewrite andb_true_r.
    replace (existsb _ _) with true; [done|]. symmetry. apply existsb_exists.
    exists k. split.
    + apply in_seq. apply lookup_lt_Some in Hk. lia.
    + rewrite list_lookup_fmap, Hk. simpl. unfold accepts. rewrite Hd. simpl.
      rewrite Nat.eqb_refl, orb_false_r. simpl.
      apply negb_true_iff, Nat.eqb_neq. congruence.
  - replace (existsb _ _) with false; [done|]. symmetry.
    apply not_true_is_false. intros (k0 & _ & Hacc)%existsb_exists.
    destruct ((tap_view <$> taps s) !! k0) as [w|]; [|done].
    unfold accepts in Hacc. apply andb_prop in Hacc as [Hw Hn].
    apply Nat.eqb_eq in Hw as ->. by rewrite Nat.eqb_refl in Hn.
  - intros Hkey. by rewrite (bool_decide_eq_false_2 _ Hkey), andb_false_r.
Qed.

(** A brush over one tuple in view 0 of two brush views: view 1 then holds
    the tuple. *)
Lemma deliver_propagates_witness :
  data Examples.brush_one = PTuples ["tuple"]
  ∧ get_store (deliver Examples.brush_one Examples.two_brush_views) 1
      "__gw_brush___store"
    = Some ["tuple"].
Proof.
  split; [reflexivity|].
  exact (proj1 (deliver_propagates Examples.brush_one Examples.two_brush_views
                  ["tuple"] 1 (mkTap 1 BRUSH_SIGNAL_NAME false) "" eq_refl eq_refl
                  ltac:(discriminate))).
Defined.

(** X17. After a subscription has written a received selection of its own
    signal into its renderer, exactly one call of its signal listener is
    swallowed: the first call pushes nothing, the second pushes one entry,
    tagged with the view of the subscription and carrying the tuples that
    were written. *)
Theorem one_echo_swallowed
    (e : ParamStoreEntry) (s : State) (ts : list string) (k : nat) (t : Tap) :
  taps s !! k = Some t →
  data e = PTuples ts →
  source e ≠ tap_view t →
  signal e = tap_param t →
  tap_param t ∈ [BRUSH_SIGNAL_NAME; POINT_SIGNAL_NAME] →
  let s1 := subscriber e s k in
  let s2 := signal_listener k s1 in
  let s3 := signal_listener k s2 in
  combinedParamStore s2 = combinedParamStore s
  ∧ combinedParamStore s3
    = combinedParamStore s ++ [mkEntry (tap_param t) (tap_view t) (PTuples ts)].
Proof.
  intros Hk Hd Hsrc Hsig Hin. cbv zeta.
  assert (Hlt : k < length (taps s)) by (by eapply lookup_lt_Some).
  assert (Hi : ignored e t = false).
  { unfold ignored. rewrite Hd. simpl. rewrite orb_false_r. by apply Nat.eqb_neq. }
  set (s1 := subscriber e s k).
  assert (Ht1 : taps s1 !! k = Some (mkTap (tap_view t) (tap_param t) true)).
  { unfold s1, subscriber. rewrite Hk, Hi. simpl. by apply list_lookup_insert_eq. }
  assert (Hc1 : combinedParamStore s1 = combinedParamStore s)
    by apply subscriber_frame.
  assert (Hg1 : get_store s1 (tap_view t) (store_of (tap_param t)) = Some ts).
  { unfold s1. rewrite (subscriber_get_store _ _ _ ts) by done.
    rewrite list_lookup_fmap, Hk. simpl. unfold accepts. rewrite Hd, Hsig. simpl.
    rewrite Nat.eqb_refl, orb_false_r. simpl.
    replace (source e =? tap_view t) with false by (symmetry; by apply Nat.eqb_neq).
    simpl. by rewrite bool_decide_eq_true_2. }
  assert (Hs2 : signal_listener k s1
                = set_tap k (mkTap (tap_view t) (tap_param t) false) s1).
  { unfold signal_listener. by rewrite Ht1. }
  rewrite Hs2. split; [done|].
  rewrite (signal_listener_broadcasts _ k (mkTap (tap_view t) (tap_param t) false)).
  - simpl. rewrite Hc1. do 3 f_equal. unfold get_store in *. simpl. by rewrite Hg1.
  - simpl. apply list_lookup_insert_eq. by apply lookup_lt_Some in Ht1.
  - done.
  - done.
Qed.

(** The brush of view 0 written into view 1: the echo is swallowed, the
    next firing re-broadcasts the tuple from view 1. *)
Lemma one_echo_swallowed_witness :
  taps Examples.two_brush_views !! 1 = Some (mkTap 1 BRUSH_SIGNAL_NAME false)
  ∧ combinedParamStore
      (signal_listener 1
         (signal_listener 1 (subscriber Examples.brush_one Examples.two_brush_views 1)))
    = [mkEntry BRUSH_SIGNAL_NAME 1 (PTuples ["tuple"])].
Proof.
  split; [reflexivity|].
  refine (proj2 (one_echo_swallowed Examples.brush_one Examples.two_brush_views
                   ["tuple"] 1 (mkTap 1 BRUSH_SIGNAL_NAME false)
                   eq_refl eq_refl ltac:(discriminate) eq_refl _)).
  apply list_elem_of_here.
Defined.

End BusMore.

(* ===================================================================== *)
(** * Further properties of the data pipeline of [Renderer] *)
(* ===================================================================== *)

Section RendererMore.
Import Renderer.

(** X18. Whatever the three services answer, the effect ends with the
    waiting flag cleared and its promise chain fulfilled; it calls
    [setUnready] once exactly when the handle is set, and it logs at most
    one error. *)
Theorem dataEffect_always_settles
    (Error IFilterField IVisualConfig DraggableFieldState : Type)
    (defaultAggregated : IVisualConfig → bool)
    (applyFilter : list IRow → list IFilterField → Settled Error (list IRow))
    (transformDataService : list IRow → list IViewField → Settled Error (list IRow))
    (applyViewQuery : list IRow → list IViewField → ViewQuery → Settled Error (list IRow))
    (st : Stores IFilterField IVisualConfig DraggableFieldState)
    (s : State Error IVisualConfig DraggableFieldState) :
  let r := dataEffect defaultAggregated applyFilter transformDataService applyViewQuery st s in
  snd r = Fulfilled tt
  ∧ waiting (fst r) = false
  ∧ setUnready_calls (fst r) = setUnready_calls s + (if target st then 1 else 0)
  ∧ (console (fst r) = console s ∨ ∃ err, console (fst r) = console s ++ [err]).
Proof.
  cbv zeta. unfold dataEffect, catch_, then_.
  rewrite (pipeline_state defaultAggregated applyFilter transformDataService
             applyViewQuery st _ s).
  destruct (snd (pipeline defaultAggregated applyFilter transformDataService
                   applyViewQuery st s)) as [data|err]; simpl.
  - repeat split; [destruct (target st); lia|by left].
  - repeat split; [destruct (target st); lia|right; by exists err].
Qed.

Lemma agg_of_snoc (meas : list IViewField) (f : IViewField) :
  agg_of (meas ++ [f]) = <[ fid f := aggName f ]> (agg_of meas).
Proof. unfold agg_of. by rewrite foldl_app. Qed.

(** X19. The aggregation map of a view query has an entry exactly for the
    ids of the measures; when two measures share an id, the aggregation of
    the later one is kept. *)
Theorem agg_of_last_wins (meas : list IViewField) (k : string) :
  agg_of meas !! k = aggName <$> last (List.filter (λ f, String.eqb (fid f) k) meas).
Proof.
  induction meas as [|f meas IH] using rev_ind; [done|].
  rewrite agg_of_snoc, List.filter_app. simpl.
  destruct (String.eqb_spec (fid f) k) as [->|Hne].
  - by rewrite lookup_insert_eq, last_snoc.
  - by rewrite lookup_insert_ne, app_nil_r.
Qed.

End RendererMore.

(* ===================================================================== *)
(** * The data loader *)
(* ===================================================================== *)

Section LoaderFacts.
Import Renderer DataLoader.

Lemma normalise_filter_idem f : normalise_filter (normalise_filter f) = normalise_filter f.
Proof.
  unfold normalise_filter. destruct (String.eqb (rule_type (rule f)) "one of") eqn:Ht.
  - simpl. rewrite Ht. by destruct (rule_value (rule f)).
  - by rewrite Ht.
Qed.

Lemma normalise_step_idem step : normalise_step (normalise_step step) = normalise_step step.
Proof.
  destruct step as [fs| |]; try done. simpl. f_equal.
  rewrite <- list_fmap_compose. apply list_fmap_ext. intros i f _. simpl.
  apply normalise_filter_idem.
Qed.

Lemma normalise_filter_array f :
  negb (String.eqb (rule_type (rule (normalise_filter f))) "one of")
  || is_array (rule_value (rule (normalise_filter f))) = true.
Proof.
  unfold normalise_filter. destruct (String.eqb (rule_type (rule f)) "one of") eqn:Ht.
  - simpl. rewrite Ht. by destruct (rule_value (rule f)).
  - by rewrite Ht.
Qed.

Lemma normalise_filter_content f : filter_content (normalise_filter f) = filter_content f.
Proof.
  unfold normalise_filter, filter_content.
  destruct (String.eqb (rule_type (rule f)) "one of"); [|done].
  simpl. by destruct (rule_value (rule f)).
Qed.

Lemma normalise_filter_id f :
  negb (String.eqb (rule_type (rule f)) "one of") || is_array (rule_value (rule f)) = true →
  normalise_filter f = f.
Proof.
  unfold normalise_filter. destruct (String.eqb (rule_type (rule f)) "one of"); [|done].
  simpl. destruct f as [fid [ty [ms|ms]]]; simpl; [done|]. done.
Qed.

(** X20. The payload sent by [transform] has an array in every ['one of']
    rule of its filter steps, whatever the caller put there, and
    normalising it again changes nothing. *)
Theorem normalise_arrays_idempotent (payload : IDataQueryPayload) :
  sets_free (normalise payload) = true
  ∧ normalise (normalise payload) = normalise payload.
Proof.
  split.
  - unfold sets_free, normalise. simpl. apply forallb_forall. intros step Hin.
    apply list_elem_of_In, list_elem_of_fmap in Hin as (step0 & -> & _).
    destruct step0 as [fs| |]; try done. simpl.
    apply forallb_forall. intros f Hf.
    apply list_elem_of_In, list_elem_of_fmap in Hf as (f0 & -> & _).
    apply normalise_filter_array.
  - unfold normalise. simpl. f_equal.
    rewrite <- list_fmap_compose. apply list_fmap_ext. intros i step _. simpl.
    apply normalise_step_idem.
Qed.

(** X21. Normalising keeps the data set, the steps in their order, and in
    every filter its field, its rule type and the members of its value in
    their order; view steps and other steps are passed on as they are. A
    payload without a [Set] in a ['one of'] rule is sent unchanged. *)
Theorem normalise_keeps_content (payload : IDataQueryPayload) :
  datasetId (normalise payload) = datasetId payload
  ∧ step_content <$> workflow (normalise payload) = step_content <$> workflow payload
  ∧ (if sets_free payload then normalise payload = payload else True).
Proof.
  split; [done|]. split.
  - unfold normalise. simpl. rewrite <- list_fmap_compose.
    apply list_fmap_ext. intros i step _. simpl.
    destruct step as [fs| |]; try done. simpl. f_equal.
    rewrite <- list_fmap_compose. apply list_fmap_ext. intros j f _. simpl.
    apply normalise_filter_content.
  - destruct (sets_free payload) eqn:Hfree; [|done].
    destruct payload as [ds wf]. unfold normalise. simpl. f_equal.
    unfold sets_free in Hfree. simpl in Hfree.
    rewrite <- (list_fmap_id wf) at 2. apply list_fmap_ext. intros i step Hi. simpl.
    apply list_elem_of_lookup_2, list_elem_of_In in Hi.
    pose proof (proj1 (forallb_forall _ _) Hfree step Hi) as Hstep.
    destruct step as [fs| |]; try done. simpl. f_equal.
    rewrite <- (list_fmap_id fs) at 2. apply list_fmap_ext. intros j f Hj. simpl.
    apply list_elem_of_lookup_2, list_elem_of_In in Hj.
    apply normalise_filter_id. exact (proj1 (forallb_forall _ _) Hstep f Hj).
Qed.

Context {E : Type} (server : string)
  (fetch : string → IDataQueryPayload → Settled E (Response E)).

Lemma query_log payload log :
  fst (query server fetch payload log) = log ++ [(query_url server, payload)].
Proof. done. Qed.

Lemma query_fulfils payload log rows :
  snd (query server fetch payload log) = Fulfilled rows
  ↔ ∃ res result,
      fetch (query_url server) payload = Fulfilled res
      ∧ (status res = 200 ∨ status res = 500)
      ∧ json res = Fulfilled result
      ∧ success result = true
      ∧ data result = rows.
Proof.
  unfold query, read_response. simpl. split.
  - destruct (fetch _ _) as [res|e]; [|done].
    destruct (Nat.eqb (status res) 200) eqn:H200;
      destruct (Nat.eqb (status res) 500) eqn:H500; simpl; try done.
    all: destruct (json res) as [result|e] eqn:Hjson; [|done].
    all: destruct (success result) eqn:Hs; simpl; [|done].
    all: intros [= <-]; exists res, result; repeat split; try done.
    + left. by apply Nat.eqb_eq.
    + left. by apply Nat.eqb_eq.
    + right. by apply Nat.eqb_eq.
  - intros (res & result & -> & Hst & -> & -> & <-).
    destruct Hst as [-> | ->]; done.
Qed.

(** X22. [transform] makes exactly one request, to the query address of
    the server, with the normalised payload as its body. It fulfils exactly
    when the answer has status 200 or 500, its body can be read, and the
    body does not say [success: false]; the rows are then the [data] of
    the body. *)
Theorem transform_one_request (payload : IDataQueryPayload)
    (log : list Request) (rows : list (gmap string Cell)) :
  fst (transform server fetch payload log)
    = log ++ [(query_url server, normalise payload)]
  ∧ (snd (transform server fetch payload log) = Fulfilled rows
     ↔ ∃ res result,
         fetch (query_url server) (normalise payload) = Fulfilled res
         ∧ (status res = 200 ∨ status res = 500)
         ∧ json res = Fulfilled result
         ∧ success result = true
         ∧ data result = rows).
Proof.
  split; [apply query_log|]. apply query_fulfils.
Qed.

Lemma insert_sorted_perm {A} (cmp : A → A → Z) x l :
  insert_sorted cmp x l ≡ₚ x :: l.
Proof.
  induction l as [|y l IH]; [done|]. simpl.
  destruct (cmp x y <=? 0)%Z; [done|].
  rewrite IH. apply Permutation_swap.
Qed.

Lemma sort_perm {A} (cmp : A → A → Z) l : sort cmp l ≡ₚ l.
Proof.
  induction l as [|x l IH]; [done|]. unfold sort. simpl.
  rewrite insert_sorted_perm. by f_equiv.
Qed.

Lemma compare_count_numeric countId a b :
  (∃ z, a !! countId = Some (Num z)) → (∃ z, b !! countId = Some (Num z)) →
  compare_count countId a b = (count_of countId b - count_of countId a)%Z.
Proof.
  intros [x Hx] [y Hy]. unfold compare_count, count_of. by rewrite Hx, Hy.
Qed.

Lemma insert_sorted_sorted countId x l :
  (∃ z, x !! countId = Some (Num z)) →
  Forall (λ row, ∃ z, row !! countId = Some (Num z)) l →
  StronglySorted (λ a b, (count_of countId b ≤ count_of countId a)%Z) l →
  StronglySorted (λ a b, (count_of countId b ≤ count_of countId a)%Z)
    (insert_sorted (compare_count countId) x l).
Proof.
  intros Hx Hl Hs. induction Hs as [|y l Hs IH Hy]; simpl.
  - constructor; [constructor|constructor].
  - apply Forall_cons in Hl as [Hny Hl].
    rewrite (compare_count_numeric _ _ _ Hx Hny).
    destruct (Z.leb_spec (count_of countId y - count_of countId x) 0) as [Hle|Hgt].
    + constructor; [by constructor|]. constructor; [lia|].
      eapply Forall_impl; [exact Hy|]. simpl. intros; lia.
    + constructor; [by apply IH|].
      rewrite insert_sorted_perm. constructor; [lia|done].
Qed.

Lemma sort_sorted countId l :
  Forall (λ row, ∃ z, row !! countId = Some (Num z)) l →
  StronglySorted (λ a b, (count_of countId b ≤ count_of countId a)%Z)
    (sort (compare_count countId) l).
Proof.
  induction 1 as [|x l Hx Hl IH]; [constructor|]. unfold sort. simpl.
  apply insert_sorted_sorted; [done| |done].
  fold (sort (compare_count countId) l). by rewrite sort_perm.
Qed.

Lemma slice_take {A} (k : nat) (l : list A) : slice 0 (Some (Z.of_nat k)) l = take k l.
Proof.
  unfold slice, clamp_index.
  destruct (Z.ltb_spec (Z.of_nat k) 0) as [Hneg|_]; [lia|].
  destruct (Z.ltb_spec 0 0) as [Hneg|_]; [lia|].
  replace (Z.to_nat (Z.min 0 (Z.of_nat (length l)))) with 0 by lia.
  rewrite Nat.sub_0_r. change (drop 0 l) with l.
  destruct (Nat.le_gt_cases k (length l)) as [Hle|Hgt].
  - f_equal. lia.
  - replace (Z.to_nat (Z.min (Z.of_nat k) (Z.of_nat (length l)))) with (length l) by lia.
    rewrite (take_ge l (length l)) by lia. by rewrite (take_ge l k) by lia.
Qed.

(** X23. When every row of the answer has a number as its count, the
    [values] of [statField] are the entries of the first 20 rows of the
    answer rearranged by descending count: no row is lost or made up by the
    sorting, at most 20 entries are given, and each keeps the value and the
    count of its row. *)
Theorem top_values_largest (fid : string) (rows : list (gmap string Cell))
    (Hnum : ∀ row, row ∈ rows → ∃ z, row !! COUNT_ID fid = Some (Num z)) :
  let sorted := sort (compare_count (COUNT_ID fid)) rows in
  sorted ≡ₚ rows
  ∧ StronglySorted
      (λ a b, (count_of (COUNT_ID fid) b ≤ count_of (COUNT_ID fid) a)%Z) sorted
  ∧ top_values fid rows
      = (λ row : gmap string Cell, (row !! fid, row !! COUNT_ID fid)) <$> take 20 sorted
  ∧ length (top_values fid rows) = Nat.min 20 (length rows).
Proof.
  intros sorted. split; [apply sort_perm|]. split.
  { apply sort_sorted. by apply Forall_forall. }
  assert (top_values fid rows
          = (λ row : gmap string Cell, (row !! fid, row !! COUNT_ID fid)) <$> take 20 sorted)
    as Htop.
  { unfold top_values. by rewrite (slice_take 20). }
  split; [done|].
  rewrite Htop, length_fmap, length_take. unfold sorted. by rewrite sort_perm.
Qed.

(** Three rows with counts 1, 3 and 2. *)
Lemma top_values_largest_witness :
  (∀ row, row ∈ MoreExamples.count_rows →
     ∃ z, row !! COUNT_ID "city" = Some (Num z))
  ∧ top_values "city" MoreExamples.count_rows
    = (λ row : gmap string Cell, (row !! "city", row !! COUNT_ID "city"))
        <$> take 20 (sort (compare_count (COUNT_ID "city")) MoreExamples.count_rows).
Proof.
  assert (∀ row, row ∈ MoreExamples.count_rows →
            ∃ z, row !! COUNT_ID "city" = Some (Num z)) as Hnum.
  { intros row Hrow. unfold MoreExamples.count_rows in Hrow.
    repeat (apply elem_of_cons in Hrow as [-> | Hrow]; [eexists; vm_compute; reflexivity|]).
    by apply elem_of_nil in Hrow. }
  split; [exact Hnum|].
  exact (proj1 (proj2 (proj2 (top_values_largest "city" MoreExamples.count_rows Hnum)))).
Defined.

Lemma min_max_distinct fid : MIN_ID fid ≠ MAX_ID fid.
Proof. unfold MIN_ID, MAX_ID. cbn. intros H. by inversion H. Qed.

Lemma then_query {B} payload (f : list (gmap string Cell) → Async (list Request) (Failure E) B) log :
  then_ (query server fetch payload) f log
  = match snd (query server fetch payload []) with
    | Fulfilled rows => f rows (log ++ [(query_url server, payload)])
    | Rejected err => (log ++ [(query_url server, payload)], Rejected err)
    end.
Proof. done. Qed.

Lemma then_service {S B} (rows : list (gmap string Cell))
    (f : list (gmap string Cell) → Async S (Failure E) B) (s : S) :
  then_ (service (Fulfilled rows)) f s = f rows s.
Proof. done. Qed.

Ltac statField_cases values range :=
  unfold statField; destruct values, range;
  repeat (rewrite then_query || rewrite then_service);
  repeat match goal with
         | |- context [snd (query server fetch ?payload [])] =>
             let rows := fresh "rows" in
             let err := fresh "err" in
             destruct (snd (query server fetch payload [])) as [rows|err];
             cbv beta iota; repeat (rewrite then_query || rewrite then_service)
         end;
  unfold service.

(** X24. [statField] asks the server at most twice, first for the counts
    and then for the range, each only when its flag is set; the requests it
    has made are a prefix of those two, and when it fulfils it has made
    every one its flags ask for. *)
Theorem statField_requests (dataset_id fid : string) (values range : bool)
    (log : list Request) :
  let asked :=
    (if values then [(query_url server, valuesQueryPayload dataset_id fid)] else [])
    ++ (if range then [(query_url server, rangeQueryPayload dataset_id fid)] else []) in
  ∃ made,
    fst (statField server fetch dataset_id fid values range log) = log ++ made
    ∧ made `prefix_of` asked
    ∧ match snd (statField server fetch dataset_id fid values range log) with
      | Fulfilled _ => made = asked
      | Rejected _ => True
      end.
Proof.
  intros asked. unfold asked. clear asked.
  statField_cases values range.
  all: repeat match goal with
              | |- context [match ?rows with [] => _ | _ :: _ => _ end] => destruct rows
              end.
  all: cbv beta iota; unfold fst, snd.
  all: try (eexists; split; [by rewrite <- app_assoc|]; by split).
  all: try (eexists; split; [done|]; by split).
  - eexists; split; [done|]. split; [|done]. by eexists [_].
  - exists []. by rewrite app_nil_r.
Qed.

(** X25. A part that is not asked for costs no request and has a fixed
    value: without [values] the list of values is empty, without [range]
    the range is 0 to 0, and with neither flag nothing is sent at all. *)
Theorem statField_unrequested (dataset_id fid : string) (values range : bool)
    (log : list Request) (st : Stat)
    (Hst : snd (statField server fetch dataset_id fid values range log) = Fulfilled st) :
  (if values then True else stat_values st = [])
  ∧ (if range then True else stat_range st = (Some (Num 0), Some (Num 0)))
  ∧ (if values || range then True
     else fst (statField server fetch dataset_id fid values range log) = log).
Proof.
  assert (({[ MIN_ID fid := Num 0; MAX_ID fid := Num 0 ]} : gmap string Cell) !! MIN_ID fid
          = Some (Num 0)) as Hmin by apply lookup_insert_eq.
  assert (({[ MIN_ID fid := Num 0; MAX_ID fid := Num 0 ]} : gmap string Cell) !! MAX_ID fid
          = Some (Num 0)) as Hmax.
  { rewrite lookup_insert_ne by apply min_max_distinct. apply lookup_singleton_eq. }
  revert Hst. statField_cases values range.
  all: repeat match goal with
              | |- context [match ?rows with [] => _ | _ :: _ => _ end] => destruct rows
              end.
  all: cbv beta iota; unfold fst, snd, orb; try discriminate.
  all: intros [= <-]; unfold stat_values, stat_range, top_values;
       rewrite ?Hmin, ?Hmax; by repeat split.
Qed.

(** X26. When the range is asked for and the server answers the range
    query with no row, [statField] never fulfils, whatever the count query
    gave; without [values] it rejects with a [TypeError]. *)
Theorem statField_empty_range_rejects (dataset_id fid : string) (values : bool)
    (log : list Request)
    (Hempty : snd (query server fetch (rangeQueryPayload dataset_id fid) []) = Fulfilled []) :
  (∃ f, snd (statField server fetch dataset_id fid values true log) = Rejected f)
  ∧ (if values then True
     else snd (statField server fetch dataset_id fid values true log) = Rejected TypeError).
Proof.
  unfold statField. destruct values; repeat (rewrite then_query || rewrite then_service).
  - destruct (snd (query server fetch (valuesQueryPayload dataset_id fid) [])) as [vrows|f];
      cbv beta iota.
    + rewrite then_query, Hempty. cbv beta iota. split; [by eexists|done].
    + split; [by eexists|done].
  - rewrite Hempty. cbv beta iota. split; [by eexists|done].
Qed.

End LoaderFacts.

(** The values of [city] are asked for and its range is not. *)
Lemma statField_unrequested_witness :
  snd (DataLoader.statField "" (MoreExamples.answering MoreExamples.count_rows)
         "sales" "city" true false [])
    = Renderer.Fulfilled MoreExamples.city_stat
  ∧ DataLoader.stat_range MoreExamples.city_stat
    = (Some (DataLoader.Num 0), Some (DataLoader.Num 0)).
Proof.
  assert (snd (DataLoader.statField "" (MoreExamples.answering MoreExamples.count_rows)
                 "sales" "city" true false [])
          = Renderer.Fulfilled MoreExamples.city_stat) as Hst
    by (vm_compute; reflexivity).
  split; [exact Hst|].
  exact (proj1 (proj2 (statField_unrequested ""
           (MoreExamples.answering MoreExamples.count_rows)
           "sales" "city" true false [] MoreExamples.city_stat Hst))).
Defined.

(** A server without rows: the range of [city] cannot be read. *)
Lemma statField_empty_range_rejects_witness :
  snd (DataLoader.query "" (MoreExamples.answering [])
         (DataLoader.rangeQueryPayload "sales" "city") [])
    = Renderer.Fulfilled []
  ∧ snd (DataLoader.statField "" (MoreExamples.answering []) "sales" "city" false true [])
    = Renderer.Rejected DataLoader.TypeError.
Proof.
  split; [reflexivity|].
  exact (proj2 (statField_empty_range_rejects "" (MoreExamples.answering [])
                  "sales" "city" false [] eq_refl)).
Defined.

(* ===================================================================== *)
(** * The click subscription *)
(* ===================================================================== *)

Section GeomClickFacts.
Import GeomClick.
Context {ScenegraphEvent Handler : Type}.
Implicit Types (s : State ScenegraphEvent Handler) (tr : list (Event ScenegraphEvent Handler)).

Lemma geom_run_snoc s tr ev : run s (tr ++ [ev]) = step (run s tr) ev.
Proof. unfold run. by rewrite foldl_app. Qed.

Lemma selections_keep_waiting s tr :
  subscribed s = true → latest s = None → forallb is_selection tr = true →
  run s tr = s.
Proof.
  revert s. induction tr as [|ev tr IH]; intros s Hsub Hlat Hsel; [done|].
  simpl in Hsel. apply andb_true_iff in Hsel as [Hev Htr].
  destruct ev as [e|values|h]; try done.
  unfold run. simpl. rewrite Hsub, Hlat. by apply IH.
Qed.

(** X27. When the effect has subscribed (again), selections are dropped
    until the next click: a run of selections right after a subscription
    calls no handler, whatever was clicked before the subscription. *)
Theorem selection_after_subscribe_dropped s (h : option Handler) tr
    (Hsel : forallb is_selection tr = true) :
  calls (run (step s (Subscribe h)) tr) = calls s.
Proof.
  by rewrite selections_keep_waiting.
Qed.

Lemma selections_with_click s (h : Handler) (e : ScenegraphEvent) (vs : list Values) :
  subscribed s = true → latest s = Some e → handler s = Some h →
  run s (Selection <$> vs)
  = mkState true (Some e) (Some h)
      (calls s ++ ((λ v, mkCall h v e) <$> List.filter non_empty vs)).
Proof.
  revert s. induction vs as [|v vs IH]; intros s Hsub Hlat Hh.
  - simpl. rewrite app_nil_r. destruct s; simpl in *; by subst.
  - rewrite fmap_cons.
    change (run s (Selection v :: (Selection <$> vs)))
      with (run (step s (Selection v)) (Selection <$> vs)).
    assert (step s (Selection v)
            = if non_empty v
              then mkState true (Some e) (Some h) (calls s ++ [mkCall h v e])
              else s) as ->.
    { simpl. rewrite Hsub, Hlat, Hh. by destruct (non_empty v). }
    simpl. destruct (non_empty v).
    + rewrite IH by done. simpl. by rewrite <- app_assoc.
    + by rewrite IH.
Qed.

(** X28. After a subscription with a handler and one click, every selection
    that has at least one key is handed to that handler together with that
    same click, in order, and a selection without keys is skipped: one
    click serves any number of selections. *)
Theorem one_click_serves_selections s (h : Handler) (e : ScenegraphEvent)
    (vs : list Values) :
  calls (run (step (step s (Subscribe (Some h))) (Click e)) (Selection <$> vs))
  = calls s ++ ((λ v, mkCall h v e) <$> List.filter non_empty vs).
Proof.
  by rewrite (selections_with_click _ h e).
Qed.

Lemma justified_snoc tr ev (c : Call ScenegraphEvent Handler) :
  justified tr c → justified (tr ++ [ev]) c.
Proof.
  intros (H1 & H2 & H3 & H4). repeat split; [done|..]; apply elem_of_app; by left.
Qed.

Lemma calls_justified_inv tr :
  (∀ c, c ∈ calls (run init tr) → justified tr c)
  ∧ (∀ e, latest (run init tr) = Some e → Click e ∈ tr)
  ∧ (∀ h, handler (run init tr) = Some h → Subscribe (Some h) ∈ tr).
Proof.
  induction tr as [|ev tr (IHc & IHl & IHh)] using rev_ind.
  - split; [|split]; simpl; intros ? Hin; try done. by apply elem_of_nil in Hin.
  - assert ((∀ c, c ∈ calls (run init tr) → justified (tr ++ [ev]) c)
            ∧ (∀ e, latest (run init tr) = Some e → Click e ∈ tr ++ [ev])
            ∧ (∀ h, handler (run init tr) = Some h → Subscribe (Some h) ∈ tr ++ [ev]))
      as Hsame.
    { split; [intros c Hc; by apply justified_snoc, IHc|]. split.
      - intros e' He. apply elem_of_app. left. by apply IHl.
      - intros h Hh. apply elem_of_app. left. by apply IHh. }
    pose proof Hsame as (Hc' & Hl' & Hh').
    assert (ev ∈ tr ++ [ev]) as Hev.
    { apply elem_of_app. right. by apply list_elem_of_singleton. }
    rewrite geom_run_snoc.
    destruct (run init tr) as [sub lat hd cs]. simpl in *.
    destruct ev as [e|values|h]; simpl.
    + destruct sub; simpl; [|exact Hsame].
      split; [done|]. split; [|done]. by intros e' [= <-].
    + destruct sub; [|exact Hsame].
      destruct lat as [e|]; [|exact Hsame].
      destruct (non_empty values) eqn:Hne; [|exact Hsame].
      destruct hd as [h|]; [|exact Hsame].
      simpl. split; [|by split].
      intros c Hc. apply elem_of_app in Hc as [Hc|Hc]; [by apply Hc'|].
      apply list_elem_of_singleton in Hc as ->.
      split; [done|]. split; [by apply Hl'|]. split; [done|]. by apply Hh'.
    + split; [done|]. split; [done|]. by intros h' [= ->].
Qed.

(** X29. Every call of a handler is justified by the events: its values
    have at least one key and were emitted as a selection, its event was
    emitted as a click, and its handler was given to a subscription. *)
Theorem calls_justified tr (c : Call ScenegraphEvent Handler) :
  c ∈ calls (run init tr) → justified tr c.
Proof.
  apply (calls_justified_inv tr).
Qed.

End GeomClickFacts.

Section GeomClickExamples.
Import GeomClick.

(** The handler changes between the click and its selection. *)
Lemma selection_after_subscribe_dropped_witness :
  forallb is_selection MoreExamples.resubscribed_trace = true
  ∧ calls (run (step (run init [Subscribe (Some "first"); Click 7])
                  (Subscribe (Some "second")))
             MoreExamples.resubscribed_trace) = [].
Proof.
  split; [reflexivity|].
  exact (selection_after_subscribe_dropped
           (run init [Subscribe (Some "first"); Click 7]) (Some "second")
           MoreExamples.resubscribed_trace eq_refl).
Defined.

(** One subscription, one click, one selection. *)
Lemma calls_justified_witness :
  mkCall "first" ({[ "city" := ["Oslo"] ]} : Values) 7
    ∈ calls (run init ([Subscribe (Some "first"); Click 7]
                         ++ MoreExamples.resubscribed_trace))
  ∧ Click 7 ∈ ([Subscribe (Some "first"); Click 7] ++ MoreExamples.resubscribed_trace
                : list (Event nat string)).
Proof.
  assert (mkCall "first" ({[ "city" := ["Oslo"] ]} : Values) 7
            ∈ calls (run init ([Subscribe (Some "first"); Click 7]
                                 ++ MoreExamples.resubscribed_trace))) as Hc.
  { vm_compute. apply list_elem_of_singleton. reflexivity. }
  split; [exact Hc|].
  exact (proj1 (proj2 (calls_justified _ _ Hc))).
Defined.

End GeomClickExamples.
